(** * Lead deduplication (lib/dedupe.js): a shallow embedding and its properties

    The development follows the [Deduplicator] class of the lead pipeline:
    the tokenizer, the Jaccard scorer, the three-tier duplicate classifier,
    the batch [dedupe] loop with its in-place id assignment, and the
    [checkExisting] lookup against the JSON store of lib/db.js.  It goes on
    with the operations of that store ([addLead], [updateLead],
    [deleteLead]) and with the loader of the .env file.

    Modelling choices.
    - A JavaScript string is a [string] of bytes (its UTF-8 encoding, which is
      what [crypto]'s [update] hashes).  [toLowerCase] folds the ASCII letters
      and the two characters outside ASCII whose lower case holds an ASCII
      letter (U+212A and U+0130); every other byte above 127 stays above 127,
      falls outside [\w] and acts as a separator in the tokenizer.
    - A lead is a JavaScript object: a finite map from property names to
      values.  A missing property reads as [undefined].
    - Leads are passed by reference.  [dedupe] writes [lead.id] on the caller's
      objects and allocates the copies it pushes on [duplicates], so the heap
      is explicit: a finite map from locations to objects.
    - A JavaScript number is [NaN], [Infinity] or a finite double.  [Num q]
      is the double nearest to the rational [q]: a double is written by its
      own value, the literal 0.85 by 17/20, and the quotient of two sizes by
      the fraction itself.  The rounding (to nearest, ties to even) is done
      where a number is looked at, in the comparison [>=]. *)

From Stdlib Require Import QArith Ascii String.
From stdpp Require Import gmap strings list fin_maps.

Local Open Scope string_scope.
Local Open Scope list_scope.

(** ** JavaScript values *)

Module Js.

(** A number: [NaN], [Infinity], or the finite double nearest to [q]. *)
Inductive num : Type :=
| NaN
| Inf
| Num (q : Q).

(** [n / d] rounded to the nearest integer, ties to even, for [0 <= n] and
    [0 < d]. *)
Definition round_half_even (n d : Z) : Z :=
  let m := (n / d)%Z in
  let r := (n mod d)%Z in
  if (2 * r <? d)%Z then m
  else if (d <? 2 * r)%Z then (m + 1)%Z
  else if Z.even m then m else (m + 1)%Z.

(** The value of the double nearest to [q] (binary64: a mantissa of 53 bits,
    steps of [2^-1074] at the bottom of the range).  [e] is the binary
    exponent of [q] and [k] the number of bits kept after the binary point.
    Numbers beyond the range of the doubles do not arise: a quotient of sizes
    is at most 1 and a threshold is a double. *)
Definition to_double (q : Q) : Q :=
  let n := Z.abs (Qnum q) in
  let d := Z.pos (Qden q) in
  if (n =? 0)%Z then 0
  else
    let e0 := (Z.log2 n - Z.log2 d)%Z in
    let e := if (d * 2 ^ Z.max e0 0 <=? n * 2 ^ Z.max (- e0) 0)%Z
             then e0 else (e0 - 1)%Z in
    let k := (52 - Z.max e (-1022))%Z in
    let up := (2 ^ Z.max k 0)%Z in
    let down := (2 ^ Z.max (- k) 0)%Z in
    let m := round_half_even (n * up) (d * down) in
    Qred ((Z.sgn (Qnum q) * m * down) # Z.to_pos up).

(** [a >= b] on numbers: false as soon as one side is [NaN]; two finite
    numbers are compared as doubles. *)
Definition ge (a b : num) : bool :=
  match a, b with
  | NaN, _ | _, NaN => false
  | Inf, _ => true
  | Num _, Inf => false
  | Num x, Num y => Qle_bool (to_double y) (to_double x)
  end.

(** [a / b] for two collection sizes: [0 / 0] is [NaN], [a / 0] is
    [Infinity] for a positive [a], and otherwise the double nearest to the
    fraction, which [Num] of the fraction in lowest terms stands for. *)
Definition div_size (a b : nat) : num :=
  match b, a with
  | O, O => NaN
  | O, S _ => Inf
  | S _, _ => Num (Qred (Z.of_nat a # Pos.of_nat b))
  end.

(** Truthiness of a number: [0] and [NaN] are falsy. *)
Definition num_truthy (n : num) : bool :=
  match n with
  | NaN => false
  | Inf => true
  | Num q => negb (Qeq_bool q 0)
  end.

(** The values a lead property holds. *)
Inductive value : Type :=
| VUndef
| VStr (s : string).

#[global] Instance value_eq_dec : EqDecision value.
Proof. solve_decision. Defined.

#[global] Instance value_inhabited : Inhabited value := populate VUndef.

(** Truthiness: [undefined] and the empty string are falsy. *)
Definition truthy (v : value) : bool :=
  match v with
  | VUndef => false
  | VStr s => negb (String.eqb s "")
  end.

(** [a || b] *)
Definition or (a b : value) : value := if truthy a then a else b.

(** [a === b] *)
Definition strict_eq (a b : value) : bool := bool_decide (a = b).

(** String conversion, as a template literal does it. *)
Definition to_string (v : value) : string :=
  match v with
  | VUndef => "undefined"
  | VStr s => s
  end.

End Js.

Import Js.

(** ** Objects and the heap *)

Abbreviation obj := (gmap string value).
Abbreviation loc := nat.
Abbreviation heap := (gmap loc obj).

(** [o.k] *)
Definition get (o : obj) (k : string) : value := default VUndef (o !! k).

(** The object a reference points to. *)
Definition deref (h : heap) (l : loc) : obj := h !!! l.

(** ** String primitives *)

Module Str.

Definition code (c : ascii) : N := N_of_ascii c.

(** [\s] on ASCII: tab, line feed, vertical tab, form feed, carriage
    return, space. *)
Definition is_space (c : ascii) : bool :=
  let n := code c in ((9 <=? n) && (n <=? 13) || (n =? 32))%N.

(** [\w]: letters, digits and the underscore. *)
Definition is_word (c : ascii) : bool :=
  let n := code c in
  ((48 <=? n) && (n <=? 57) || (65 <=? n) && (n <=? 90)
   || (n =? 95) || (97 <=? n) && (n <=? 122))%N.

Definition lower_char (c : ascii) : ascii :=
  let n := code c in
  if ((65 <=? n) && (n <=? 90))%N then ascii_of_N (n + 32) else c.

Fixpoint map (f : ascii → ascii) (s : string) : string :=
  match s with
  | EmptyString => EmptyString
  | String c s' => String (f c) (map f s')
  end.

(** [s.toLowerCase()] on the UTF-8 text.  The letters A to Z are folded.
    Two characters outside ASCII have a lower case that holds an ASCII
    letter: the Kelvin sign U+212A (bytes E2 84 AA) becomes [k], and the
    dotted capital I U+0130 (bytes C4 B0) becomes [i] followed by the
    combining dot U+0307 (bytes CC 87).  The lower case of every other
    character outside ASCII stays outside ASCII, where [strip_punct] turns
    each byte into a space; those characters are left as they are. *)
Fixpoint toLowerCase (s : string) : string :=
  match s with
  | EmptyString => EmptyString
  | String c s1 =>
      match s1 with
      | String c1 s2 =>
          if (code c =? 196)%N && (code c1 =? 176)%N
          then String "i" (String (ascii_of_N 204) (String (ascii_of_N 135)
                 (toLowerCase s2)))
          else
            match s2 with
            | String c2 s3 =>
                if (code c =? 226)%N && (code c1 =? 132)%N && (code c2 =? 170)%N
                then String "k" (toLowerCase s3)
                else String (lower_char c) (toLowerCase s1)
            | EmptyString => String (lower_char c) (toLowerCase s1)
            end
      | EmptyString => String (lower_char c) EmptyString
      end
  end.

(** [s.replace(/[^\w\s]/g, ' ')] *)
Definition strip_punct (s : string) : string :=
  map (λ c, if is_word c || is_space c then c else " "%char) s.

(** [s.split(/\s+/)]: the pieces between maximal runs of white space.  A
    string that starts or ends with white space gives an empty first or last
    piece, and the empty string gives one empty piece.  [cur] is the piece
    being read, [insep] tells that the previous character was white
    space. *)
Fixpoint split_from (s cur : string) (insep : bool) : list string :=
  match s with
  | EmptyString => [cur]
  | String c s' =>
      if is_space c
      then if insep then split_from s' "" true
           else cur :: split_from s' "" true
      else split_from s' (cur +:+ String c "") false
  end.

Definition split_ws (s : string) : list string := split_from s "" false.

(** [s.slice(0, n)] *)
Fixpoint take (n : nat) (s : string) : string :=
  match n, s with
  | S n', String c s' => String c (take n' s')
  | _, _ => EmptyString
  end.

End Str.

(** ** SHA-256, as [crypto.createHash('sha256')] computes it (FIPS 180-4)

    Words are integers below [2^32].  The round constants and the initial
    state are computed from their definition: the leading 32 fractional bits
    of the cube roots, respectively square roots, of the first primes. *)

Module Sha256.

Local Open Scope Z_scope.

Definition w32 (x : Z) : Z := x mod 2 ^ 32.

Definition add32 (x y : Z) : Z := w32 (x + y).

Definition rotr (n x : Z) : Z :=
  Z.lor (Z.shiftr x n) (w32 (Z.shiftl x (32 - n))).

Definition Ch (x y z : Z) : Z :=
  Z.lxor (Z.land x y) (Z.land (Z.lxor x (Z.ones 32)) z).

Definition Maj (x y z : Z) : Z :=
  Z.lxor (Z.lxor (Z.land x y) (Z.land x z)) (Z.land y z).

Definition Sum0 (x : Z) : Z := Z.lxor (Z.lxor (rotr 2 x) (rotr 13 x)) (rotr 22 x).
Definition Sum1 (x : Z) : Z := Z.lxor (Z.lxor (rotr 6 x) (rotr 11 x)) (rotr 25 x).
Definition sig0 (x : Z) : Z := Z.lxor (Z.lxor (rotr 7 x) (rotr 18 x)) (Z.shiftr x 3).
Definition sig1 (x : Z) : Z := Z.lxor (Z.lxor (rotr 17 x) (rotr 19 x)) (Z.shiftr x 10).

Definition primes : list Z :=
  [2; 3; 5; 7; 11; 13; 17; 19; 23; 29; 31; 37; 41; 43; 47; 53;
   59; 61; 67; 71; 73; 79; 83; 89; 97; 101; 103; 107; 109; 113; 127; 131;
   137; 139; 149; 151; 157; 163; 167; 173; 179; 181; 191; 193; 197; 199;
   211; 223; 227; 229; 233; 239; 241; 251; 257; 263; 269; 271; 277; 281;
   283; 293; 307; 311].

(** The integer cube root of a number below [2^(3*bits)], one bit at a
    time from the top. *)
Fixpoint cbrt_bits (bits : nat) (n r : Z) : Z :=
  match bits with
  | O => r
  | S b =>
      let r' := r + 2 ^ Z.of_nat b in
      cbrt_bits b n (if r' * r' * r' <=? n then r' else r)
  end.

Definition K : list Z :=
  Eval vm_compute in
    List.map (λ p, w32 (cbrt_bits 36 (p * 2 ^ 96) 0)) primes.

Definition H0 : list Z :=
  Eval vm_compute in
    List.map (λ p, w32 (Z.sqrt (p * 2 ^ 64))) (take 8 primes).

(** Padding: a [1] bit, zeros up to 56 modulo 64 bytes, then the bit length
    on 8 bytes, most significant first. *)
Definition be_bytes (n : nat) (x : Z) : list Z :=
  List.map (λ i, Z.shiftr x (8 * Z.of_nat i) mod 256) (rev (seq 0 n)).

Definition pad (msg : list Z) : list Z :=
  let len := Z.of_nat (length msg) in
  let zeros := Z.to_nat ((55 - len) mod 64) in
  msg ++ [128] ++ replicate zeros 0 ++ be_bytes 8 (8 * len).

Fixpoint chunks (size n : nat) (bs : list Z) : list (list Z) :=
  match n with
  | O => []
  | S n' => take size bs :: chunks size n' (drop size bs)
  end.

Definition be_word (bs : list Z) : Z :=
  fold_left (λ acc b, acc * 256 + b) bs 0.

Definition block_words (block : list Z) : list Z :=
  List.map be_word (chunks 4 16 block).

(** The message schedule: 16 words of the block, then 48 derived ones. *)
Fixpoint schedule (n : nat) (ws : list Z) : list Z :=
  match n with
  | O => ws
  | S n' =>
      let t := length ws in
      let at_ i := nth (t - i) ws 0 in
      schedule n' (ws ++ [w32 (sig1 (at_ 2%nat) + at_ 7%nat
                               + sig0 (at_ 15%nat) + at_ 16%nat)])
  end.

Record state : Type :=
  State { sa : Z; sb : Z; sc : Z; sd : Z; se : Z; sf : Z; sg : Z; sh : Z }.

Definition round (s : state) (kw : Z * Z) : state :=
  let '(k, w) := kw in
  let t1 := w32 (sh s + Sum1 (se s) + Ch (se s) (sf s) (sg s) + k + w) in
  let t2 := w32 (Sum0 (sa s) + Maj (sa s) (sb s) (sc s)) in
  State (add32 t1 t2) (sa s) (sb s) (sc s) (add32 (sd s) t1) (se s) (sf s) (sg s).

Definition compress (s : state) (block : list Z) : state :=
  let ws := schedule 48 (block_words block) in
  let r := fold_left round (zip K ws) s in
  State (add32 (sa s) (sa r)) (add32 (sb s) (sb r)) (add32 (sc s) (sc r))
        (add32 (sd s) (sd r)) (add32 (se s) (se r)) (add32 (sf s) (sf r))
        (add32 (sg s) (sg r)) (add32 (sh s) (sh r)).

Definition init : state :=
  let h i := nth i H0 0 in
  State (h 0%nat) (h 1%nat) (h 2%nat) (h 3%nat)
        (h 4%nat) (h 5%nat) (h 6%nat) (h 7%nat).

Definition digest (msg : list Z) : state :=
  let p := pad msg in
  fold_left compress (chunks 64 (length p / 64) p) init.

(** Lower-case hexadecimal output. *)
Definition hexd (x : Z) : ascii :=
  let d := x mod 16 in
  ascii_of_N (Z.to_N (if d <? 10 then 48 + d else 87 + d)).

Definition hex8 (x : Z) (rest : string) : string :=
  String (hexd (Z.shiftr x 28)) (String (hexd (Z.shiftr x 24))
 (String (hexd (Z.shiftr x 20)) (String (hexd (Z.shiftr x 16))
 (String (hexd (Z.shiftr x 12)) (String (hexd (Z.shiftr x 8))
 (String (hexd (Z.shiftr x 4)) (String (hexd x) rest))))))).

Definition hex (s : state) : string :=
  hex8 (sa s) (hex8 (sb s) (hex8 (sc s) (hex8 (sd s)
 (hex8 (se s) (hex8 (sf s) (hex8 (sg s) (hex8 (sh s) ""))))))).

Fixpoint bytes (s : string) : list Z :=
  match s with
  | EmptyString => []
  | String c s' => Z.of_N (N_of_ascii c) :: bytes s'
  end.

(** [crypto.createHash('sha256').update(s).digest('hex')] *)
Definition sha256_hex (s : string) : string := hex (digest (bytes s)).

End Sha256.

(** ** The Deduplicator class *)

(** The [options] argument of the constructor; [None] is a property that is
    not given.  [new Deduplicator()] takes [no_options]. *)
Record Options : Type := {
  opt_similarityThreshold : option num;
  opt_titleThreshold : option num
}.

Definition no_options : Options :=
  {| opt_similarityThreshold := None; opt_titleThreshold := None |}.

Record Deduplicator : Type := {
  similarityThreshold : num;
  titleThreshold : num
}.

(** [options.x || dflt] *)
Definition option_or (x : option num) (dflt : num) : num :=
  match x with
  | Some n => if num_truthy n then n else dflt
  | None => dflt
  end.

Definition constructor (options : Options) : Deduplicator :=
  {| similarityThreshold := option_or (opt_similarityThreshold options) (Num (17 # 20));
     titleThreshold := option_or (opt_titleThreshold options) (Num (9 # 10)) |}.

Definition generateId (lead : obj) : string :=
  let content :=
    to_string (get lead "source") +:+ ":" +:+
    to_string (or (get lead "url") (VStr "")) +:+ ":" +:+
    to_string (or (or (get lead "title") (get lead "text")) (VStr "")) in
  Str.take 16 (Sha256.sha256_hex content).

(** [text || ''] is a string in every case, so [to_string] only unwraps. *)
Definition tokenize (text : value) : list string :=
  filter (λ w, 2 < String.length w)
    (Str.split_ws (Str.strip_punct (Str.toLowerCase (to_string (or text (VStr "")))))).

Definition jaccardSimilarity (str1 str2 : value) : num :=
  let set1 : gset string := list_to_set (tokenize str1) in
  let set2 : gset string := list_to_set (tokenize str2) in
  let intersection := filter (λ x, x ∈ set2) set1 in
  let union := set1 ∪ set2 in
  div_size (size intersection) (size union).

(** The combined text of tier 3. *)
Definition content (lead : obj) : string :=
  to_string (or (get lead "title") (VStr "")) +:+ " " +:+
  to_string (or (get lead "text") (VStr "")).

(** The three conditions of [isDuplicate], in the order they are tried. *)
Definition same_url (lead1 lead2 : obj) : bool :=
  truthy (get lead1 "url") && truthy (get lead2 "url")
  && strict_eq (get lead1 "url") (get lead2 "url").

Definition titleSim (lead1 lead2 : obj) : num :=
  jaccardSimilarity (get lead1 "title") (get lead2 "title").

Definition similar_title (d : Deduplicator) (lead1 lead2 : obj) : bool :=
  strict_eq (get lead1 "source") (get lead2 "source")
  && ge (titleSim lead1 lead2) (titleThreshold d).

Definition similarity (lead1 lead2 : obj) : num :=
  jaccardSimilarity (VStr (content lead1)) (VStr (content lead2)).

Definition isDuplicate (d : Deduplicator) (lead1 lead2 : obj) : bool :=
  if same_url lead1 lead2 then true
  else if similar_title d lead1 lead2 then true
  else ge (similarity lead1 lead2) (similarityThreshold d).

(** *** dedupe

    The state of the outer loop: the heap and the two arrays.  [unique] holds
    references to the caller's objects, [duplicates] references to objects
    allocated by the loop. *)
Record Batch : Type := {
  store : heap;
  unique : list loc;
  duplicates : list loc
}.

(** [if (!lead.id) lead.id = this.generateId(lead)] *)
Definition assign_id (h : heap) (l : loc) : heap :=
  let lead := deref h l in
  if truthy (get lead "id") then h
  else <[l := <["id" := VStr (generateId lead)]> lead]> h.

(** The inner loop: the first entry of [unique] that [lead] duplicates; the
    [break] is the return at the first hit. *)
Fixpoint first_duplicate (d : Deduplicator) (h : heap) (lead : loc)
    (uniq : list loc) : option loc :=
  match uniq with
  | [] => None
  | existing :: rest =>
      if isDuplicate d (deref h lead) (deref h existing) then Some existing
      else first_duplicate d h lead rest
  end.

(** One iteration of [for (const lead of leads)]. *)
Definition dedupe_step (d : Deduplicator) (st : Batch) (l : loc) : Batch :=
  let h := assign_id (store st) l in
  match first_duplicate d h l (unique st) with
  | Some existing =>
      let copy := <["duplicateOf" := get (deref h existing) "id"]> (deref h l) in
      let l' := fresh (dom h) in
      {| store := <[l' := copy]> h;
         unique := unique st;
         duplicates := duplicates st ++ [l'] |}
  | None =>
      {| store := h; unique := unique st ++ [l]; duplicates := duplicates st |}
  end.

Definition dedupe (d : Deduplicator) (leads : list loc) (h : heap) : Batch :=
  fold_left (dedupe_step d) leads {| store := h; unique := []; duplicates := [] |}.

(** *** The store of lib/db.js and checkExisting *)

(** [db.data.leads]: the array of stored records. *)
Record Database : Type := { data_leads : list loc }.

Definition getAllLeads (db : Database) : list loc := data_leads db.

(** [this.data.leads.find(l => l.id === id)] *)
Definition getLeadById (h : heap) (db : Database) (id : value) : option loc :=
  List.find (λ l, strict_eq (get (deref h l) "id") id) (data_leads db).

(** The object [checkExisting] resolves to; [None] is a property that the
    object does not have. *)
Record Existing : Type := {
  exists_ : bool;
  lead : option loc;
  similar : option bool
}.

Fixpoint check_similar (d : Deduplicator) (h : heap) (l : loc)
    (allLeads : list loc) : Existing :=
  match allLeads with
  | [] => {| exists_ := false; lead := None; similar := None |}
  | existing :: rest =>
      if isDuplicate d (deref h l) (deref h existing)
      then {| exists_ := true; lead := Some existing; similar := Some true |}
      else check_similar d h l rest
  end.

Definition checkExisting (d : Deduplicator) (h : heap) (l : loc)
    (db : Database) : Existing :=
  match getLeadById h db (get (deref h l) "id") with
  | Some existing => {| exists_ := true; lead := Some existing; similar := None |}
  | None => check_similar d h l (getAllLeads db)
  end.

(** ** Notions of the statements and proofs *)

(** Two objects that agree on the four fields the classifier and the
    fingerprint read. *)
Definition same_content (o o' : obj) : Prop :=
  get o "source" = get o' "source" ∧ get o "url" = get o' "url"
  ∧ get o "title" = get o' "title" ∧ get o "text" = get o' "text".

(** The object once [if (!lead.id) lead.id = this.generateId(lead)] ran on
    it. *)
Definition with_id (o : obj) : obj :=
  if truthy (get o "id") then o else <["id" := VStr (generateId o)]> o.

(** The classifier on the objects of the heap [h]. *)
Definition dup_in (d : Deduplicator) (h : heap) (x y : loc) : bool :=
  isDuplicate d (deref h x) (deref h y).

(** The [unique] array alone: a lead is kept when no kept lead makes [dup]
    true for it. *)
Definition scan_step (dup : loc → loc → bool) (acc : list loc) (l : loc) : list loc :=
  if existsb (dup l) acc then acc else acc ++ [l].

Definition scan (dup : loc → loc → bool) (ls : list loc) : list loc :=
  fold_left (scan_step dup) ls [].

(** Every lead of the batch is an object of the heap. *)
Definition allocated (h : heap) (leads : list loc) : Prop :=
  Forall (λ l, l ∈ dom h) leads.

(** The state of the loop once the leads [pre] of the heap [h0] went through
    it. *)
Definition loop_inv (d : Deduplicator) (h0 : heap) (pre : list loc) (st : Batch) : Prop :=
  dom h0 ⊆ dom (store st)
  ∧ (∀ l, l ∈ dom h0 →
       deref (store st) l
       = if decide (l ∈ pre) then with_id (deref h0 l) else deref h0 l)
  ∧ unique st = scan (dup_in d h0) pre
  ∧ (∀ e, e ∈ unique st → e ∈ pre)
  ∧ (∀ x, x ∈ duplicates st →
       x ∈ dom (store st) ∧ (x ∉ dom h0)
       ∧ ∃ l e, l ∈ pre ∧ e ∈ unique st
           ∧ deref (store st) x
             = (<["duplicateOf" := get (with_id (deref h0 e)) "id"]>
                  (with_id (deref h0 l)))).

(** The entries of [unique] that the inner loop passes to [isDuplicate], in
    the order of the calls: the loop leaves at the first hit. *)
Fixpoint compared (d : Deduplicator) (h : heap) (lead : loc)
    (uniq : list loc) : list loc :=
  match uniq with
  | [] => []
  | existing :: rest =>
      existing :: (if isDuplicate d (deref h lead) (deref h existing) then []
                   else compared d h lead rest)
  end.

(** The ids of [unique] are pairwise distinct. *)
Definition distinct_ids (b : Batch) : Prop :=
  ∀ i j x y, i ≠ j → unique b !! i = Some x → unique b !! j = Some y →
    get (deref (store b) x) "id" ≠ get (deref (store b) y) "id".

(** Membership in lists built with [++] and [::]. *)
Ltac list_mem :=
  rewrite ?elem_of_app, ?elem_of_cons, ?list_elem_of_singleton, ?elem_of_nil in *;
  naive_solver.

(** ** Worked inputs *)

(** An object literal with string properties. *)
Definition object (props : list (string * string)) : obj :=
  list_to_map (prod_map id VStr <$> props).

Definition heap_of (objs : list obj) : heap :=
  list_to_map (zip (seq 1 (length objs)) objs).

Module Examples.

(** The batch of the pipeline test (tests/pipeline.test.js, test 6). *)
Definition test_leads : heap := heap_of [
  object [("id", "1"); ("source", "test"); ("title", "Need Facebook Ads Help");
          ("url", "http://example.com/1")];
  object [("id", "2"); ("source", "test"); ("title", "Need Facebook Ads Help");
          ("url", "http://example.com/1")];
  object [("id", "3"); ("source", "test"); ("title", "Google Ads Specialist Needed");
          ("url", "http://example.com/2")] ].

(** Two unrelated leads that carry the same id. *)
Definition same_id_leads : heap := heap_of [
  object [("id", "1"); ("source", "hackernews"); ("title", "Need Facebook Ads Help")];
  object [("id", "1"); ("source", "reddit"); ("title", "Shopify Developer Wanted")] ].

(** Two leads without id whose titles hold no word of three letters. *)
Definition short_title_leads : heap := heap_of [
  object [("source", "reddit"); ("title", "PM")];
  object [("source", "reddit"); ("title", "PM")] ].

(** Two leads without id that share their url. *)
Definition no_id_leads : heap := heap_of [
  object [("source", "reddit"); ("url", "http://example.com/1");
          ("title", "Need Facebook Ads Help")];
  object [("source", "hackernews"); ("url", "http://example.com/1");
          ("title", "Facebook advertising freelancer")] ].

(** Same source; nine of the ten title words are shared. *)
Definition nine_of_ten : heap := heap_of [
  object [("source", "reddit"); ("url", "http://example.com/a");
          ("title", "need senior google ads expert for shopify store launch month")];
  object [("source", "reddit"); ("url", "http://example.com/b");
          ("title", "need senior google ads expert for shopify store launch")] ].

(** Same source; eight of the ten title words are shared. *)
Definition eight_of_ten : heap := heap_of [
  object [("source", "reddit");
          ("title", "need senior google ads expert for shopify store launch month")];
  object [("source", "reddit");
          ("title", "need senior google ads expert for shopify store")] ].

(** Different sources; seventeen of the twenty words of title and text are
    shared. *)
Definition seventeen_of_twenty : heap := heap_of [
  object [("source", "reddit"); ("title", "marketing help wanted");
          ("text", "our shopify store needs someone who can run facebook and google ads with budget around five thousand")];
  object [("source", "hackernews"); ("title", "marketing help wanted");
          ("text", "our shopify store needs someone who can run facebook and google ads with budget")] ].

(** Different sources; sixteen of the twenty words are shared. *)
Definition sixteen_of_twenty : heap := heap_of [
  object [("source", "reddit"); ("title", "marketing help wanted");
          ("text", "our shopify store needs someone who can run facebook and google ads with budget around five thousand")];
  object [("source", "hackernews"); ("title", "marketing help wanted");
          ("text", "our shopify store needs someone who can run facebook and google ads with")] ].

End Examples.

Import Examples.

(** ** Character predicates of the statements *)

(** Every character of [s] satisfies [p]. *)
Fixpoint all_chars (p : ascii → bool) (s : string) : bool :=
  match s with
  | EmptyString => true
  | String c s' => p c && all_chars p s'
  end.

(** A digit, a lower-case letter or the underscore. *)
Definition is_token_char (c : ascii) : bool :=
  let n := Str.code c in
  ((48 <=? n) && (n <=? 57) || (n =? 95) || (97 <=? n) && (n <=? 122))%N.

(** A character that [strip_punct] leaves as white space or as a character
    of a token: every character but the upper-case letters. *)
Definition stripped_ok (c : ascii) : bool :=
  let c' := if Str.is_word c || Str.is_space c then c else " "%char in
  Str.is_space c' || is_token_char c'.

(** A lower-case hexadecimal digit. *)
Definition is_hex_digit (c : ascii) : bool :=
  let n := Str.code c in
  ((48 <=? n) && (n <=? 57) || (97 <=? n) && (n <=? 102))%N.

(** ** The store of lib/db.js: the operations that change it

    The state is the heap, [db.data] (the array of records and
    [lastUpdated]) and the clock.  [new Date().toISOString()] reads the
    clock, an arbitrary sequence of strings, and moves it on.  [save] stamps
    [lastUpdated] and writes the JSON text of [db.data] to the file; the file
    itself is not part of the state. *)

Record World : Type := {
  objects : heap;
  data : Database;
  lastUpdated : string;
  ticks : nat
}.

Section Store.

Variable clock : nat → string.

(** [new Date().toISOString()] *)
Definition now (w : World) : string * World :=
  (clock (ticks w),
   {| objects := objects w; data := data w; lastUpdated := lastUpdated w;
      ticks := S (ticks w) |}).

Definition save (w : World) : World :=
  let '(t, w1) := now w in
  {| objects := objects w1; data := data w1; lastUpdated := t; ticks := ticks w1 |}.

Definition set_objects (h : heap) (w : World) : World :=
  {| objects := h; data := data w; lastUpdated := lastUpdated w; ticks := ticks w |}.

Definition set_leads (ls : list loc) (w : World) : World :=
  {| objects := objects w; data := {| data_leads := ls |};
     lastUpdated := lastUpdated w; ticks := ticks w |}.

(** The object [addLead] returns. *)
Record Added : Type := { added : bool; added_lead : loc }.

(** [Object.assign(target, source, { updatedAt: t })]: the properties of
    [source] go over those of [target], then [updatedAt]. *)
Definition assign_updated (target source : obj) (t : string) : obj :=
  <["updatedAt" := VStr t]> (source ∪ target).

Definition addLead (l : loc) (w : World) : Added * World :=
  let h := objects w in
  match getLeadById h (data w) (get (deref h l) "id") with
  | Some existing =>
      let '(t, w1) := now w in
      let merged := assign_updated (deref h existing) (deref h l) t in
      ({| added := false; added_lead := existing |},
       save (set_objects (<[existing := merged]> h) w1))
  | None =>
      let '(captured, w1) :=
        if truthy (get (deref h l) "capturedAt") then (get (deref h l) "capturedAt", w)
        else let '(t, w') := now w in (VStr t, w') in
      let '(t, w2) := now w1 in
      let record := <["updatedAt" := VStr t]> (<["capturedAt" := captured]> (deref h l)) in
      let l' := fresh (dom h) in
      ({| added := true; added_lead := l |},
       save (set_leads (data_leads (data w) ++ [l'])
               (set_objects (<[l' := record]> h) w2)))
  end.

Definition updateLead (id : value) (updates : loc) (w : World) : option loc * World :=
  let h := objects w in
  match getLeadById h (data w) id with
  | Some l =>
      let '(t, w1) := now w in
      let merged := assign_updated (deref h l) (deref h updates) t in
      (Some l, save (set_objects (<[l := merged]> h) w1))
  | None => (None, w)
  end.

(** [leads.findIndex(l => l.id === id)]; [None] stands for [-1]. *)
Fixpoint findIndex (h : heap) (id : value) (ls : list loc) : option nat :=
  match ls with
  | [] => None
  | l :: rest =>
      if strict_eq (get (deref h l) "id") id then Some 0
      else S <$> findIndex h id rest
  end.

Definition deleteLead (id : value) (w : World) : bool * World :=
  match findIndex (objects w) id (data_leads (data w)) with
  | Some index => (true, save (set_leads (delete index (data_leads (data w))) w))
  | None => (false, w)
  end.

End Store.

(** The ids of the stored records, in the order of the store. *)
Definition stored_ids (h : heap) (db : Database) : list value :=
  (λ l, get (deref h l) "id") <$> data_leads db.

(** The records and the lead at hand are objects of the heap. *)
Definition well_formed (w : World) : Prop :=
  allocated (objects w) (data_leads (data w)).

(** A clock and a store for the worked inputs: the leads 1 and 3 of the
    pipeline test are stored, lead 2 is not. *)
Definition example_clock (n : nat) : string :=
  "2024-01-01T00:00:0" +:+ String (ascii_of_nat (48 + n)) ".000Z".

Definition example_world : World :=
  {| objects := test_leads; data := {| data_leads := [1; 3] |};
     lastUpdated := "2023-12-31T00:00:00.000Z"; ticks := 0 |}.

(** ** The loader of the .env file (second file of the same source part)

    [load] takes the content of the file, for the case that the file exists;
    without the file nothing is set.  The file is read as UTF-8 text; the
    strings below are its bytes.  The
    characters the code tells apart that are not ASCII (the line separators
    U+2028 and U+2029 for [.], the Unicode spaces for [trim]) are matched by
    their UTF-8 encodings. *)

Module Env.

Definition of_bytes (bs : list N) : string :=
  fold_right (λ b s, String (ascii_of_N b) s) "" bs.

(** The line terminators of JavaScript: LF, CR, U+2028, U+2029. *)
Definition line_terminators : list string :=
  [of_bytes [10]; of_bytes [13]; of_bytes [226; 128; 168]; of_bytes [226; 128; 169]]%N.

(** The white space of JavaScript that is not a line terminator: TAB, VT, FF,
    SP, U+00A0, U+1680, U+2000 to U+200A, U+202F, U+205F, U+3000, U+FEFF. *)
Definition white_space : list string :=
  [of_bytes [9]; of_bytes [11]; of_bytes [12]; of_bytes [32];
   of_bytes [194; 160]; of_bytes [225; 154; 128];
   of_bytes [226; 128; 128]; of_bytes [226; 128; 129]; of_bytes [226; 128; 130];
   of_bytes [226; 128; 131]; of_bytes [226; 128; 132]; of_bytes [226; 128; 133];
   of_bytes [226; 128; 134]; of_bytes [226; 128; 135]; of_bytes [226; 128; 136];
   of_bytes [226; 128; 137]; of_bytes [226; 128; 138];
   of_bytes [226; 128; 175]; of_bytes [226; 129; 159];
   of_bytes [227; 128; 128]; of_bytes [239; 187; 191]]%N.

Fixpoint drop (n : nat) (s : string) : string :=
  match n, s with
  | S n', String _ s' => drop n' s'
  | _, _ => s
  end.

Fixpoint rev_onto (s acc : string) : string :=
  match s with
  | EmptyString => acc
  | String c s' => rev_onto s' (String c acc)
  end.

Definition rev (s : string) : string := rev_onto s "".

(** The first of [toks] that [s] starts with. *)
Definition leading (toks : list string) (s : string) : option string :=
  List.find (λ t, String.prefix t s) toks.

(** [s] without the [toks] it starts with; [n] bounds the number of
    rounds. *)
Fixpoint strip (toks : list string) (n : nat) (s : string) : string :=
  match n with
  | O => s
  | S n' =>
      match leading toks s with
      | Some t => strip toks n' (drop (String.length t) s)
      | None => s
      end
  end.

(** [s.trim()]: white space and line terminators go from both ends. *)
Definition trim (s : string) : string :=
  let toks := white_space ++ line_terminators in
  let s1 := strip toks (String.length s) s in
  rev (strip (List.map rev toks) (String.length s1) (rev s1)).

(** [.] matches every character of [s]: no line terminator starts anywhere
    in [s]. *)
Fixpoint dot_all (s : string) : bool :=
  match s with
  | EmptyString => true
  | String _ s' =>
      match leading line_terminators s with
      | Some _ => false
      | None => dot_all s'
      end
  end.

Definition key_char (c : ascii) : bool :=
  negb (Ascii.eqb c "#"%char) && negb (Ascii.eqb c "="%char).

(** The longest prefix of [s] made of characters that [p] accepts, and the
    rest. *)
Fixpoint span (p : ascii → bool) (s : string) : string * string :=
  match s with
  | EmptyString => ("", "")
  | String c s' =>
      if p c then let '(a, b) := span p s' in (String c a, b)
      else ("", s)
  end.

(** [line.match(re)], where [re] asks for one or more characters other than
    [#] and [=] from the start of the line (the key), then [=], then
    characters that [.] matches up to the end of the line (the value). *)
Definition match_line (line : string) : option (string * string) :=
  match span key_char line with
  | (String c key, String "="%char value) =>
      if dot_all value then Some (String c key, value) else None
  | _ => None
  end.

(** [content.split('\n')] *)
Fixpoint split_lines_from (s cur : string) : list string :=
  match s with
  | EmptyString => [rev cur]
  | String c s' =>
      if Ascii.eqb c (ascii_of_N 10) then rev cur :: split_lines_from s' ""
      else split_lines_from s' (String c cur)
  end.

Definition split_lines (s : string) : list string := split_lines_from s "".

(** [process.env] is the map of the variables that are set, and an object:
    a name that is no variable is looked up in [Object.prototype].  These
    are the names found there; each reads as a function or an object. *)
Definition inherited : list string :=
  ["constructor"; "hasOwnProperty"; "isPrototypeOf"; "propertyIsEnumerable";
   "toLocaleString"; "toString"; "valueOf"; "__proto__";
   "__defineGetter__"; "__defineSetter__"; "__lookupGetter__"; "__lookupSetter__"].

(** [!process.env[key]]: the variable is empty, or there is no such variable
    and no inherited property of that name. *)
Definition reads_falsy (env : gmap string string) (key : string) : bool :=
  match env !! key with
  | Some v => String.eqb v ""
  | None => negb (bool_decide (key ∈ inherited))
  end.

Definition set_unless_present (env : gmap string string) (line : string)
    : gmap string string :=
  match match_line line with
  | Some (key, value) =>
      if reads_falsy env key then <[key := trim value]> env else env
  | None => env
  end.

Definition load (content : string) (env : gmap string string) : gmap string string :=
  fold_left set_unless_present (split_lines content) env.

End Env.

(** The last character of a string. *)
Fixpoint last_char (s : string) : option ascii :=
  match s with
  | EmptyString => None
  | String c EmptyString => Some c
  | String _ s' => last_char s'
  end.

(** The worked .env file: a comment, two settings, a second setting of the
    first key, and an empty setting followed by a real one. *)
Definition example_env_file : string :=
  Env.of_bytes [35; 32; 107; 101; 121; 115; 10]%N
  +:+ "OPENAI_API_KEY = sk-test " +:+ Env.of_bytes [10]%N
  +:+ "MIN_SCORE=HOT" +:+ Env.of_bytes [10]%N
  +:+ "OPENAI_API_KEY =other" +:+ Env.of_bytes [10]%N
  +:+ "SMTP_HOST=" +:+ Env.of_bytes [10]%N
  +:+ "SMTP_HOST=mail.example.com".

(** ** Sanity checks of the embedding *)

Example sha256_abc :
  Sha256.sha256_hex "abc"
  = "ba7816bf8f01cfea414140de5dae2223b00361a396177a9cb410ff61f20015ad".
Proof. vm_compute. reflexivity. Qed.

Example split_ws_pieces : Str.split_ws " a  b " = [""; "a"; "b"; ""].
Proof. reflexivity. Qed.

Example tokenize_title :
  tokenize (VStr " Need Facebook-Ads  Help, it's ok! ")
  = ["need"; "facebook"; "ads"; "help"].
Proof. vm_compute. reflexivity. Qed.

(** The Kelvin sign and the dotted capital I, as UTF-8 text. *)
Example tokenize_outside_ascii :
  tokenize (VStr (String (ascii_of_N 226) (String (ascii_of_N 132)
                   (String (ascii_of_N 170) "elvin scale")))) = ["kelvin"; "scale"]
  ∧ tokenize (VStr ("T" +:+ String (ascii_of_N 195) (String (ascii_of_N 156) "RK")
                    +:+ String (ascii_of_N 196) (String (ascii_of_N 176) "YE")))
    = ["rki"].
Proof. vm_compute. auto. Qed.

Example no_id_duplicate :
  let b := dedupe (constructor no_options) [1; 2] no_id_leads in
  unique b = [1] ∧ duplicates b = [3]
  ∧ get (deref (store b) 2) "id" = VStr "c9c3f2b4b7400d50"
  ∧ get (deref (store b) 3) "id" = VStr "c9c3f2b4b7400d50"
  ∧ get (deref (store b) 3) "duplicateOf" = get (deref (store b) 1) "id".
Proof. vm_compute. auto. Qed.

Example pipeline_test :
  let b := dedupe (constructor no_options) [1; 2; 3] test_leads in
  unique b = [1; 3] ∧ duplicates b = [4]
  ∧ get (deref (store b) 4) "duplicateOf" = VStr "1".
Proof. vm_compute. auto. Qed.

(** ** Numbers *)

Section Numbers.

Lemma ge_NaN_l (t : num) : ge NaN t = false.
Proof. reflexivity. Qed.

Lemma ge_Num (x y : Q) :
  ge (Num x) (Num y) = true ↔ (to_double y <= to_double x)%Q.
Proof. unfold ge. apply Qle_bool_iff. Qed.

Lemma ge_Num_false (x y : Q) :
  ge (Num x) (Num y) = false ↔ (to_double x < to_double y)%Q.
Proof.
  unfold ge. rewrite <- not_true_iff_false, Qle_bool_iff.
  split; [apply Qnot_le_lt | apply Qlt_not_le].
Qed.

Lemma div_size_same (n : nat) : n ≠ 0 → div_size n n = Num 1.
Proof.
  destruct n as [|m]; [done|]. intros _. unfold div_size.
  change 1%Q with (Qred 1). f_equal. apply Qred_complete.
  unfold Qeq. simpl. lia.
Qed.


End Numbers.

(** ** The scorer *)

Section Scorer.

Implicit Types a b : value.

Lemma jaccardSimilarity_self a :
  tokenize a ≠ [] → jaccardSimilarity a a = Num 1.
Proof.
  intros Hne. unfold jaccardSimilarity.
  set (s := list_to_set (tokenize a) : gset string).
  assert (filter (λ x, x ∈ s) s = s) as ->.
  { apply set_eq. intros x. rewrite elem_of_filter. tauto. }
  rewrite (union_idemp_L s).
  apply div_size_same. rewrite size_non_empty_iff.
  destruct (tokenize a) as [|w ws] eqn:E; [done|].
  intros Hs. assert (w ∈ s) as Hw by (subst s; set_solver).
  rewrite Hs in Hw. set_solver.
Qed.

Lemma jaccardSimilarity_no_tokens a b :
  tokenize a = [] → tokenize b = [] → jaccardSimilarity a b = NaN.
Proof. intros Ha Hb. unfold jaccardSimilarity. rewrite Ha, Hb. reflexivity. Qed.

End Scorer.

(** C1, as the code has it.  A string with at least one word of three or more
    characters has similarity 1 with itself.  When neither string has such a
    word (the empty string among them) the scorer divides 0 by 0: the result
    is NaN, not 0, and no threshold comparison [>=] holds for it. *)
Theorem similarity_identity :
  (∀ a : value, tokenize a ≠ [] → jaccardSimilarity a a = Num 1)
  ∧ (∀ a b : value, tokenize a = [] → tokenize b = [] →
       jaccardSimilarity a b = NaN
       ∧ ∀ t : num, ge (jaccardSimilarity a b) t = false).
Proof.
  split; [apply jaccardSimilarity_self|].
  intros a b Ha Hb. rewrite (jaccardSimilarity_no_tokens a b Ha Hb). done.
Qed.

Lemma similarity_identity_witness :
  jaccardSimilarity (VStr "Need Facebook Ads Help") (VStr "Need Facebook Ads Help") = Num 1
  ∧ jaccardSimilarity (VStr "") (VStr "PM") = NaN.
Proof.
  split.
  - apply (proj1 similarity_identity). vm_compute. discriminate.
  - apply (proj2 similarity_identity (VStr "") (VStr "PM")); reflexivity.
Defined.

(** C1 as stated fails: the similarity of the empty string with itself is not
    0, and a non-empty string without a word of three characters does not
    have similarity 1 with itself. *)
Lemma similarity_identity_counterexample :
  jaccardSimilarity (VStr "") (VStr "") ≠ Num 0
  ∧ "PM" ≠ "" ∧ jaccardSimilarity (VStr "PM") (VStr "PM") ≠ Num 1.
Proof. vm_compute. repeat split; discriminate. Qed.

(** ** The constructor *)






(** ** The classifier *)

Section Classifier.

Variable d : Deduplicator.
Implicit Types lead : obj.

Lemma truthy_VStr (s : string) : truthy (VStr s) = true ↔ s ≠ "".
Proof.
  simpl. rewrite negb_true_iff, <- not_true_iff_false, String.eqb_eq. done.
Qed.

Lemma same_url_true lead1 lead2 (u : string) :
  get lead1 "url" = VStr u → get lead2 "url" = VStr u → u ≠ "" →
  same_url lead1 lead2 = true.
Proof.
  intros H1 H2 Hu. unfold same_url, strict_eq. rewrite H1, H2.
  apply truthy_VStr in Hu. rewrite Hu. by rewrite bool_decide_eq_true_2.
Qed.

Lemma isDuplicate_same_url lead1 lead2 :
  same_url lead1 lead2 = true → isDuplicate d lead1 lead2 = true.
Proof. unfold isDuplicate. by intros ->. Qed.

Lemma isDuplicate_similar_title lead1 lead2 :
  similar_title d lead1 lead2 = true → isDuplicate d lead1 lead2 = true.
Proof. unfold isDuplicate. intros ->. by destruct (same_url lead1 lead2). Qed.

Lemma isDuplicate_similarity lead1 lead2 :
  ge (similarity lead1 lead2) (similarityThreshold d) = true →
  isDuplicate d lead1 lead2 = true.
Proof.
  unfold isDuplicate. intros ->.
  by destruct (same_url lead1 lead2), (similar_title d lead1 lead2).
Qed.

Lemma isDuplicate_last_tier lead1 lead2 :
  same_url lead1 lead2 = false → similar_title d lead1 lead2 = false →
  isDuplicate d lead1 lead2 = ge (similarity lead1 lead2) (similarityThreshold d).
Proof. unfold isDuplicate. by intros -> ->. Qed.

End Classifier.

(** C4: two leads whose urls are both present, non-empty and equal are
    duplicates, whatever their other fields and whatever the thresholds. *)
Theorem url_short_circuit (d : Deduplicator) (lead1 lead2 : obj) (u : string) :
  get lead1 "url" = VStr u → get lead2 "url" = VStr u → u ≠ "" →
  isDuplicate d lead1 lead2 = true.
Proof.
  intros H1 H2 Hu. apply isDuplicate_same_url. by apply (same_url_true _ _ u).
Qed.

Lemma url_short_circuit_witness :
  isDuplicate (constructor no_options)
    (object [("source", "reddit"); ("url", "http://example.com/1");
             ("title", "Need Facebook Ads Help")])
    (object [("source", "hackernews"); ("url", "http://example.com/1");
             ("title", "Shopify Developer Wanted"); ("text", "Remote, full time")])
  = true.
Proof.
  apply (url_short_circuit _ _ _ "http://example.com/1");
    [reflexivity | reflexivity | discriminate].
Defined.

(** C5: the comparisons are meet-or-exceed, on the doubles that the code
    compares.  Same-source tier: for two leads of the same source that the
    url tier does not join, a title similarity equal to the title threshold
    (or above it) makes them duplicates; a title similarity below it leaves
    that tier silent, and with a combined similarity below the general
    threshold as well the leads are not duplicates.  Last tier, whatever the
    titles are: a combined similarity equal to the general threshold (or
    above it) makes two leads duplicates, and one below it makes them
    distinct once the two earlier tiers are silent. *)
Theorem threshold_boundary (d : Deduplicator) (lead1 lead2 : obj) :
  (∀ s t : Q,
     same_url lead1 lead2 = false →
     get lead1 "source" = get lead2 "source" →
     titleSim lead1 lead2 = Num s → titleThreshold d = Num t →
     ((to_double t <= to_double s)%Q → isDuplicate d lead1 lead2 = true)
     ∧ ((to_double s < to_double t)%Q →
        similar_title d lead1 lead2 = false
        ∧ ∀ c g : Q,
            similarity lead1 lead2 = Num c → similarityThreshold d = Num g →
            (to_double c < to_double g)%Q → isDuplicate d lead1 lead2 = false))
  ∧ (∀ c g : Q,
       similarity lead1 lead2 = Num c → similarityThreshold d = Num g →
       ((to_double g <= to_double c)%Q → isDuplicate d lead1 lead2 = true)
       ∧ ((to_double c < to_double g)%Q →
          same_url lead1 lead2 = false → similar_title d lead1 lead2 = false →
          isDuplicate d lead1 lead2 = false)).
Proof.
  assert (Hlast : ∀ c g : Q,
            similarity lead1 lead2 = Num c → similarityThreshold d = Num g →
            (to_double c < to_double g)%Q →
            same_url lead1 lead2 = false → similar_title d lead1 lead2 = false →
            isDuplicate d lead1 lead2 = false).
  { intros c g Hc Hg Hlt Hurl Htier. rewrite isDuplicate_last_tier by done.
    rewrite Hc, Hg. by apply ge_Num_false. }
  split.
  - intros s t Hurl Hsrc Hs Ht.
    assert (Hbelow : (to_double s < to_double t)%Q →
                     similar_title d lead1 lead2 = false).
    { intros Hlt. unfold similar_title. rewrite Hs, Ht.
      apply andb_false_intro2. by apply ge_Num_false. }
    split.
    + intros Hle. apply isDuplicate_similar_title.
      unfold similar_title, strict_eq. rewrite Hs, Ht.
      rewrite bool_decide_eq_true_2 by done. by apply ge_Num.
    + intros Hlt. split; [by apply Hbelow|].
      intros c g Hc Hg Hlt'. by apply (Hlast c g), Hbelow.
  - intros c g Hc Hg. split.
    + intros Hle. apply isDuplicate_similarity. rewrite Hc, Hg.
      by apply ge_Num.
    + by apply Hlast.
Qed.

Lemma threshold_boundary_witness :
  let d := constructor no_options in
  let tweet (text : string) := object [("source", "twitter"); ("text", text)] in
  isDuplicate d (deref nine_of_ten 1) (deref nine_of_ten 2) = true
  ∧ isDuplicate d (deref eight_of_ten 1) (deref eight_of_ten 2) = false
  ∧ isDuplicate d (deref seventeen_of_twenty 1) (deref seventeen_of_twenty 2) = true
  ∧ isDuplicate d (deref sixteen_of_twenty 1) (deref sixteen_of_twenty 2) = false
  ∧ isDuplicate d
      (tweet "marketing help wanted our shopify store needs someone who can run facebook and google ads with budget around five thousand")
      (tweet "marketing help wanted our shopify store needs someone who can run facebook and google ads with budget") = true
  ∧ isDuplicate d
      (tweet "marketing help wanted our shopify store needs someone who can run facebook and google ads with budget around five thousand")
      (tweet "marketing help wanted our shopify store needs someone who can run facebook and google ads with") = false.
Proof.
  intros d tweet. split; [|split; [|split; [|split; [|split]]]].
  - refine (proj1 (proj1 (threshold_boundary d (deref nine_of_ten 1) (deref nine_of_ten 2))
                     (9 # 10) (9 # 10) _ _ _ _) _);
      vm_compute; first [reflexivity | discriminate].
  - refine (proj2 (proj2 (proj1 (threshold_boundary d
                     (deref eight_of_ten 1) (deref eight_of_ten 2))
                     (4 # 5) (9 # 10) _ _ _ _) _) (4 # 5) (17 # 20) _ _ _);
      vm_compute; reflexivity.
  - refine (proj1 (proj2 (threshold_boundary d
                     (deref seventeen_of_twenty 1) (deref seventeen_of_twenty 2))
                     (17 # 20) (17 # 20) _ _) _);
      vm_compute; first [reflexivity | discriminate].
  - refine (proj2 (proj2 (threshold_boundary d
                     (deref sixteen_of_twenty 1) (deref sixteen_of_twenty 2))
                     (4 # 5) (17 # 20) _ _) _ _ _);
      vm_compute; reflexivity.
  - refine (proj1 (proj2 (threshold_boundary d _ _) (17 # 20) (17 # 20) _ _) _);
      vm_compute; first [reflexivity | discriminate].
  - refine (proj2 (proj2 (threshold_boundary d _ _) (4 # 5) (17 # 20) _ _) _ _ _);
      vm_compute; reflexivity.
Defined.

(** The thresholds are doubles.  Take 5/6 computed in JavaScript, the double
    7505999378950827 / 2^53, as the title threshold: two titles of the same
    source that share five of their six words meet it, and titles with four
    of five do not. *)
Example threshold_five_sixths :
  let d := constructor
    {| opt_similarityThreshold := None;
       opt_titleThreshold := Some (Num (7505999378950827 # 9007199254740992)) |} in
  let lead (title : string) := object [("source", "reddit"); ("title", title)] in
  to_double (5 # 6) = (7505999378950827 # 9007199254740992)%Q
  ∧ titleSim (lead "need google ads help asap") (lead "need google ads help asap now")
    = Num (5 # 6)
  ∧ isDuplicate d (lead "need google ads help asap")
      (lead "need google ads help asap now") = true
  ∧ isDuplicate d (lead "need google ads help") (lead "need google ads help now")
    = false.
Proof. vm_compute. auto. Qed.

(** ** Objects: what the id step touches *)

Section Objects.

Implicit Types o : obj.

Lemma get_insert_eq o (k : string) (v : value) : get (<[k:=v]> o) k = v.
Proof. unfold get. by rewrite lookup_insert_eq. Qed.

Lemma get_insert_ne o (k k' : string) (v : value) :
  k ≠ k' → get (<[k:=v]> o) k' = get o k'.
Proof. intros Hk. unfold get. by rewrite lookup_insert_ne. Qed.

Lemma same_content_refl o : same_content o o.
Proof. by repeat split. Qed.

Lemma same_content_insert_id o (v : value) : same_content (<["id":=v]> o) o.
Proof. repeat split; by apply get_insert_ne. Qed.

Lemma generateId_content o o' : same_content o o' → generateId o = generateId o'.
Proof. intros (Hs & Hu & Ht & Hx). unfold generateId. by rewrite Hs, Hu, Ht, Hx. Qed.

Lemma isDuplicate_content (d : Deduplicator) o1 o1' o2 o2' :
  same_content o1 o1' → same_content o2 o2' →
  isDuplicate d o1 o2 = isDuplicate d o1' o2'.
Proof.
  intros (Hs1 & Hu1 & Ht1 & Hx1) (Hs2 & Hu2 & Ht2 & Hx2).
  unfold isDuplicate, same_url, similar_title, titleSim, similarity, content.
  by rewrite Hs1, Hu1, Ht1, Hx1, Hs2, Hu2, Ht2, Hx2.
Qed.

(** The digest prints as 64 characters, so the fingerprint is never the
    empty string. *)
Lemma generateId_length o : String.length (generateId o) = 16.
Proof.
  unfold generateId, Sha256.sha256_hex.
  by destruct (Sha256.digest _).
Qed.

Lemma generateId_truthy o : truthy (VStr (generateId o)) = true.
Proof.
  apply truthy_VStr. intros H. pose proof (generateId_length o) as Hl.
  by rewrite H in Hl.
Qed.

Lemma with_id_content o : same_content (with_id o) o.
Proof.
  unfold with_id. destruct (truthy _);
    [apply same_content_refl | apply same_content_insert_id].
Qed.

Lemma with_id_truthy o : truthy (get (with_id o) "id") = true.
Proof.
  unfold with_id. destruct (truthy (get o "id")) eqn:E; [done|].
  rewrite get_insert_eq. apply generateId_truthy.
Qed.

Lemma with_id_idemp o : with_id (with_id o) = with_id o.
Proof. unfold with_id at 1. by rewrite with_id_truthy. Qed.

Lemma with_id_other o (k : string) : k ≠ "id" → with_id o !! k = o !! k.
Proof.
  intros Hk. unfold with_id. destruct (truthy _); [done|].
  by rewrite lookup_insert_ne.
Qed.

Lemma with_id_id o :
  get (with_id o) "id"
  = if truthy (get o "id") then get o "id" else VStr (generateId o).
Proof.
  unfold with_id. destruct (truthy (get o "id")); [done|].
  by rewrite get_insert_eq.
Qed.

End Objects.

(** ** The batch loop *)

Section Dedupe.

Variable d : Deduplicator.
Implicit Types (h : heap) (l e : loc) (st : Batch).

Lemma dedupe_snoc (pre : list loc) l h :
  dedupe d (pre ++ [l]) h = dedupe_step d (dedupe d pre h) l.
Proof. unfold dedupe. by rewrite fold_left_app. Qed.

Lemma dedupe_nil h :
  dedupe d [] h = {| store := h; unique := []; duplicates := [] |}.
Proof. reflexivity. Qed.

(** *** The id step on the heap *)

Lemma deref_assign_id h l : deref (assign_id h l) l = with_id (deref h l).
Proof.
  unfold assign_id, with_id, deref.
  destruct (truthy _); [done|]. by rewrite lookup_total_insert_eq.
Qed.

Lemma deref_assign_id_ne h l l' : l ≠ l' → deref (assign_id h l) l' = deref h l'.
Proof.
  intros Hl. unfold assign_id, deref.
  destruct (truthy _); [done|]. by rewrite lookup_total_insert_ne.
Qed.

Lemma dom_assign_id h l : dom h ⊆ dom (assign_id h l).
Proof.
  unfold assign_id. destruct (truthy _); [done|]. apply dom_insert_subseteq.
Qed.

(** *** The inner loop *)

Lemma first_duplicate_None h l (uniq : list loc) :
  first_duplicate d h l uniq = None
  ↔ Forall (λ e, isDuplicate d (deref h l) (deref h e) = false) uniq.
Proof.
  induction uniq as [|e uniq IH]; simpl.
  - split; [constructor | done].
  - destruct (isDuplicate d (deref h l) (deref h e)) eqn:E.
    + split; [done|]. intros Hf. inversion Hf; congruence.
    + rewrite IH. split; [by constructor | by inversion 1].
Qed.

Lemma first_duplicate_Some h l (u1 u2 : list loc) e :
  Forall (λ x, isDuplicate d (deref h l) (deref h x) = false) u1 →
  isDuplicate d (deref h l) (deref h e) = true →
  first_duplicate d h l (u1 ++ e :: u2) = Some e.
Proof.
  intros Hu1 He. induction Hu1 as [|x u1 Hx _ IH]; simpl.
  - by rewrite He.
  - by rewrite Hx.
Qed.

Lemma first_duplicate_split h l (uniq : list loc) e :
  first_duplicate d h l uniq = Some e →
  ∃ u1 u2 : list loc, uniq = u1 ++ e :: u2
    ∧ Forall (λ x, isDuplicate d (deref h l) (deref h x) = false) u1
    ∧ isDuplicate d (deref h l) (deref h e) = true.
Proof.
  induction uniq as [|x uniq IH]; simpl; [done|].
  destruct (isDuplicate d (deref h l) (deref h x)) eqn:E.
  - intros [= ->]. by exists [], uniq.
  - intros (u1 & u2 & -> & Hu1 & He)%IH.
    exists (x :: u1), u2. repeat split; [by constructor | done].
Qed.

(** *** Count conservation *)

Lemma dedupe_step_length st l :
  length (unique (dedupe_step d st l)) + length (duplicates (dedupe_step d st l))
  = S (length (unique st) + length (duplicates st)).
Proof.
  unfold dedupe_step. destruct (first_duplicate _ _ _ _); simpl;
    rewrite length_app; simpl; lia.
Qed.

Lemma dedupe_length (leads : list loc) h :
  length (unique (dedupe d leads h)) + length (duplicates (dedupe d leads h))
  = length leads.
Proof.
  induction leads as [|l pre IH] using rev_ind; [done|].
  rewrite dedupe_snoc, dedupe_step_length, IH, length_app. simpl. lia.
Qed.

End Dedupe.

(** ** The batch loop as a scan over the initial heap *)

Section Scan.

Variable dup : loc → loc → bool.

Lemma scan_snoc (pre : list loc) (l : loc) :
scan dup (pre ++ [l]) = scan_step dup (scan dup pre) l.
Proof. unfold scan. by rewrite fold_left_app. Qed.

Lemma scan_stable (ls acc : list loc) :
scan dup acc = acc →
scan dup (fold_left (scan_step dup) ls acc) = fold_left (scan_step dup) ls acc.
Proof.
revert acc. induction ls as [|l ls IH]; intros acc Hacc; simpl; [done|].
apply IH. unfold scan_step.
destruct (existsb (dup l) acc) eqn:E; [done|].
rewrite scan_snoc, Hacc. unfold scan_step. by rewrite E.
Qed.

Lemma scan_idemp (ls : list loc) : scan dup (scan dup ls) = scan dup ls.
Proof. by apply scan_stable. Qed.

End Scan.

Lemma existsb_ext_in (f g : loc → bool) (acc : list loc) :
  (∀ y, y ∈ acc → f y = g y) → existsb f acc = existsb g acc.
Proof.
  induction acc as [|y acc IH]; intros H; simpl; [done|].
  rewrite H by set_solver. f_equal. apply IH. intros z Hz. apply H. set_solver.
Qed.

Lemma scan_fold_ext (dup dup' : loc → loc → bool) (P : loc → Prop)
    (ls acc : list loc) :
  (∀ x y, P x → P y → dup x y = dup' x y) →
  Forall P ls → Forall P acc →
  fold_left (scan_step dup) ls acc = fold_left (scan_step dup') ls acc.
Proof.
  intros Hext Hls. revert acc.
  induction Hls as [|l ls Hl _ IH]; intros acc Hacc; simpl; [done|].
  assert (scan_step dup acc l = scan_step dup' acc l) as Hstep.
  { unfold scan_step. rewrite (existsb_ext_in (dup l) (dup' l) acc); [done|].
    intros y Hy. apply Hext; [done|]. by eapply Forall_forall in Hacc. }
  rewrite Hstep. apply IH. unfold scan_step.
  destruct (existsb _ _); [done|]. apply Forall_app. split; [done|by constructor].
Qed.

Lemma scan_ext (dup dup' : loc → loc → bool) (P : loc → Prop) (ls : list loc) :
  (∀ x y, P x → P y → dup x y = dup' x y) → Forall P ls →
  scan dup ls = scan dup' ls.
Proof. intros Hext Hls. by apply (scan_fold_ext dup dup' P). Qed.

Section Invariant.

Variable d : Deduplicator.
Variable h0 : heap.
Implicit Types (l e : loc) (st : Batch) (pre : list loc).

Lemma first_duplicate_existsb (h : heap) l (uniq : list loc) :
(∀ e, e ∈ uniq → isDuplicate d (deref h l) (deref h e) = dup_in d h0 l e) →
existsb (dup_in d h0 l) uniq
= match first_duplicate d h l uniq with Some _ => true | None => false end.
Proof.
induction uniq as [|e uniq IH]; intros H; simpl; [done|].
rewrite <- (H e) by list_mem.
destruct (isDuplicate d (deref h l) (deref h e)); [done|].
apply IH. intros x Hx. apply H. list_mem.
Qed.

Lemma loop_inv_init : loop_inv d h0 [] (dedupe d [] h0).
Proof.
rewrite dedupe_nil. unfold loop_inv. cbn [store unique duplicates].
split; [done|]. split; [|split; [done|split]].
- intros l _. by rewrite decide_False by list_mem.
- intros e He. list_mem.
- intros x Hx. list_mem.
Qed.

Lemma loop_inv_step pre st l :
allocated h0 pre → l ∈ dom h0 →
loop_inv d h0 pre st → loop_inv d h0 (pre ++ [l]) (dedupe_step d st l).
Proof.
intros Hpre Hl (Hdom & Hobj & Huniq & Hsub & Hdups).
set (h1 := assign_id (store st) l).
assert (Hdom1 : dom h0 ⊆ dom h1).
{ etrans; [exact Hdom | apply dom_assign_id]. }
assert (Hobj1 : ∀ x, x ∈ dom h0 →
          deref h1 x
          = if decide (x ∈ pre ++ [l]) then with_id (deref h0 x) else deref h0 x).
{ intros x Hx. destruct (decide (x = l)) as [->|Hne].
  - subst h1. rewrite deref_assign_id, (Hobj l Hl).
    destruct (decide (l ∈ pre ++ [l])) as [_|Hnin]; [|list_mem].
    destruct (decide (l ∈ pre)); [apply with_id_idemp | done].
  - subst h1. rewrite deref_assign_id_ne by done. rewrite (Hobj x Hx).
    destruct (decide (x ∈ pre)) as [Hin|Hnin];
      destruct (decide (x ∈ pre ++ [l])) as [Hin'|Hnin']; try done; list_mem. }
assert (Hkept : ∀ x, x ∈ pre ++ [l] → deref h1 x = with_id (deref h0 x)).
{ intros x Hx. rewrite Hobj1.
  - by rewrite decide_True.
  - apply elem_of_app in Hx as [Hx|Hx].
    + by eapply Forall_forall in Hpre.
    + apply list_elem_of_singleton in Hx. by subst. }
assert (Hcmp : ∀ e, e ∈ unique st →
          isDuplicate d (deref h1 l) (deref h1 e) = dup_in d h0 l e).
{ intros e He. unfold dup_in.
  rewrite (Hkept l) by list_mem.
  rewrite (Hkept e) by (apply elem_of_app; left; by apply Hsub).
  apply isDuplicate_content; apply with_id_content. }
assert (Hold : ∀ x, x ∈ duplicates st → deref h1 x = deref (store st) x).
{ intros x Hx. destruct (Hdups x Hx) as (_ & Hx0 & _).
  subst h1. apply deref_assign_id_ne. intros ->. done. }
pose proof (first_duplicate_existsb h1 l (unique st) Hcmp) as Hex.
unfold dedupe_step. fold h1.
destruct (first_duplicate d h1 l (unique st)) as [e|] eqn:Hfd.
- apply first_duplicate_split in Hfd as (u1 & u2 & Hu & _ & _).
  assert (He : e ∈ unique st) by (rewrite Hu; list_mem).
  pose proof (is_fresh (dom h1)) as Hfresh.
  set (l' := fresh (dom h1)) in *.
  unfold loop_inv. cbn [store unique duplicates]. split; [|split; [|split; [|split]]].
  + etrans; [exact Hdom1 | apply dom_insert_subseteq].
  + intros x Hx. unfold deref. rewrite lookup_total_insert_ne.
    * by apply Hobj1.
    * intros ->. apply Hfresh. by apply Hdom1.
  + rewrite scan_snoc, <- Huniq. unfold scan_step. by rewrite Hex.
  + intros x Hx. apply elem_of_app. left. by apply Hsub.
  + intros x [Hx|Hx]%elem_of_app.
    * destruct (Hdups x Hx) as (Hxd & Hx0 & a & b & Ha & Hb & Hcopy).
      assert (x ≠ l') as Hne.
      { intros ->. apply Hfresh. by apply (dom_assign_id (store st) l). }
      split; [|split; [done|]].
      { rewrite dom_insert_L. apply elem_of_union. right.
        by apply (dom_assign_id (store st) l). }
      exists a, b. split; [list_mem|]. split; [done|].
      unfold deref. rewrite lookup_total_insert_ne by done.
      fold (deref h1 x). by rewrite Hold.
    * apply list_elem_of_singleton in Hx. subst x.
      split; [|split].
      { rewrite dom_insert_L. set_solver. }
      { intros Hin. apply Hfresh. by apply Hdom1. }
      exists l, e. split; [list_mem|]. split; [done|].
      unfold deref. rewrite lookup_total_insert_eq.
      fold (deref h1 e) (deref h1 l).
      rewrite (Hkept l) by list_mem.
      by rewrite (Hkept e) by (apply elem_of_app; left; by apply Hsub).
- unfold loop_inv. cbn [store unique duplicates]. split; [|split; [|split; [|split]]].
  + exact Hdom1.
  + exact Hobj1.
  + rewrite scan_snoc, <- Huniq. unfold scan_step. by rewrite Hex.
  + intros x [Hx|Hx]%elem_of_app; apply elem_of_app; [left; by apply Hsub | by right].
  + intros x Hx.
    destruct (Hdups x Hx) as (Hxd & Hx0 & a & b & Ha & Hb & Hcopy).
    split; [by apply (dom_assign_id (store st) l)|]. split; [done|].
    exists a, b. split; [list_mem|]. split; [list_mem|].
    by rewrite Hold.
Qed.

Lemma loop_inv_dedupe (leads : list loc) :
allocated h0 leads → loop_inv d h0 leads (dedupe d leads h0).
Proof.
induction leads as [|l pre IH] using rev_ind; intros Hall.
- apply loop_inv_init.
- apply Forall_app in Hall as [Hpre Hl]. rewrite dedupe_snoc.
  apply loop_inv_step; [done| |by apply IH].
  by inversion Hl.
Qed.

End Invariant.

(** ** The batch loop: what the two arrays hold *)

Lemma scan_subset (dup : loc → loc → bool) (ls : list loc) :
  ∀ x, x ∈ scan dup ls → x ∈ ls.
Proof.
  induction ls as [|l pre IH] using rev_ind; [done|].
  intros x. rewrite scan_snoc. unfold scan_step.
  destruct (existsb (dup l) (scan dup pre)); [|intros [?|?]%elem_of_app];
    try intros ?; apply elem_of_app; auto.
Qed.

Lemma scan_first_kept (dup : loc → loc → bool) (ls a1 a2 : list loc) (y : loc) :
  scan dup ls = a1 ++ y :: a2 → existsb (dup y) a1 = false.
Proof.
  revert a1 a2. induction ls as [|l pre IH] using rev_ind; intros a1 a2.
  - unfold scan. simpl. by destruct a1.
  - rewrite scan_snoc. unfold scan_step.
    destruct (existsb (dup l) (scan dup pre)) eqn:E; [apply IH|].
    destruct a2 as [|z a2 _] using rev_ind.
    + intros H. apply app_inj_tail in H as [H1 H2]. by subst.
    + rewrite app_comm_cons, app_assoc.
      intros H. apply app_inj_tail in H as [H _]. by eapply IH.
Qed.

Section Structure.

Variable d : Deduplicator.
Variable h : heap.
Implicit Types (l e x : loc) (st : Batch) (pre leads : list loc).

Lemma assign_id_kept pre st l :
  allocated h pre → l ∈ dom h → loop_inv d h pre st →
  ∀ x, x ∈ pre ++ [l] → deref (assign_id (store st) l) x = with_id (deref h x).
Proof.
  intros Hpre Hl (_ & Hobj & _) x Hx.
  assert (x ∈ dom h) as Hxd.
  { apply elem_of_app in Hx as [Hx|Hx].
    - by eapply Forall_forall in Hpre.
    - apply list_elem_of_singleton in Hx. by subst. }
  destruct (decide (x = l)) as [->|Hne].
  - rewrite deref_assign_id, (Hobj l Hl).
    destruct (decide (l ∈ pre)); [apply with_id_idemp | done].
  - rewrite deref_assign_id_ne by done. rewrite (Hobj x Hxd).
    destruct (decide (x ∈ pre)); [done | list_mem].
Qed.

Lemma dup_in_with_id (h' : heap) x y :
  deref h' x = with_id (deref h x) → deref h' y = with_id (deref h y) →
  isDuplicate d (deref h' x) (deref h' y) = dup_in d h x y.
Proof.
  intros -> ->. unfold dup_in. apply isDuplicate_content; apply with_id_content.
Qed.

(** The copy that [dedupe] pushes for the lead [l] matched with [e]. *)
Lemma dedupe_structure leads :
  allocated h leads →
  ∃ srcs : list loc,
    Forall2 (λ x l,
       x ∈ dom (store (dedupe d leads h)) ∧ (x ∉ dom h) ∧ l ∈ leads
       ∧ ∃ (u1 : list loc) e (u2 : list loc),
           unique (dedupe d leads h) = u1 ++ e :: u2
           ∧ Forall (λ y, dup_in d h l y = false) u1
           ∧ dup_in d h l e = true
           ∧ deref (store (dedupe d leads h)) x
             = (<["duplicateOf" := get (with_id (deref h e)) "id"]>
                  (with_id (deref h l))))
      (duplicates (dedupe d leads h)) srcs
    ∧ unique (dedupe d leads h) `sublist_of` leads
    ∧ srcs `sublist_of` leads
    ∧ leads ≡ₚ unique (dedupe d leads h) ++ srcs.
Proof.
  induction leads as [|l pre IH] using rev_ind; intros Hall.
  { exists []. rewrite dedupe_nil. simpl. repeat split; constructor. }
  apply Forall_app in Hall as [Hpre Hl]. apply Forall_inv in Hl.
  destruct (IH Hpre) as (srcs & Hcopies & Hsubu & Hsubs & Hperm). clear IH.
  pose proof (loop_inv_dedupe d h pre Hpre) as Hinv.
  pose proof (assign_id_kept pre _ l Hpre Hl Hinv) as Hkept.
  destruct Hinv as (Hdom & _ & _ & Hsub & _).
  rewrite dedupe_snoc. set (st := dedupe d pre h) in *.
  set (h1 := assign_id (store st) l) in *.
  assert (Hcmp : ∀ e, e ∈ unique st →
            isDuplicate d (deref h1 l) (deref h1 e) = dup_in d h l e).
  { intros e He. apply dup_in_with_id; apply Hkept; [list_mem|].
    apply elem_of_app. left. by apply Hsub. }
  assert (Hstay : ∀ x, x ∈ dom (store st) → x ∉ dom h →
            x ∈ dom h1 ∧ deref h1 x = deref (store st) x).
  { intros x Hx Hx0. split; [by apply (dom_assign_id (store st) l)|].
    apply deref_assign_id_ne. by intros ->. }
  unfold dedupe_step. fold h1.
  destruct (first_duplicate d h1 l (unique st)) as [e|] eqn:Hfd.
  - apply first_duplicate_split in Hfd as (u1 & u2 & Hu & Hu1 & He).
    pose proof (is_fresh (dom h1)) as Hfresh. set (l' := fresh (dom h1)) in *.
    exists (srcs ++ [l]). cbn [store unique duplicates].
    split; [|split; [|split]].
    + apply Forall2_app.
      * eapply Forall2_impl; [exact Hcopies|]. cbn beta.
        intros x l0 (Hx & Hx0 & Hl0 & v1 & e0 & v2 & Hv & Hv1 & He0 & Hcopy).
        destruct (Hstay x Hx Hx0) as [Hx1 Hsame].
        assert (x ≠ l') as Hne by (by intros ->).
        split; [rewrite dom_insert_L; set_solver|]. split; [done|].
        split; [list_mem|].
        exists v1, e0, v2. repeat split; try done.
        unfold deref. rewrite lookup_total_insert_ne by done.
        fold (deref h1 x). by rewrite Hsame.
      * constructor; [|constructor].
        split; [rewrite dom_insert_L; set_solver|].
        split; [intros Hin; by apply Hfresh, (dom_assign_id (store st) l), Hdom|].
        split; [list_mem|].
        exists u1, e, u2. split; [done|]. split; [|split].
        -- apply Forall_forall. intros y Hy.
           rewrite <- Hcmp by (rewrite Hu; list_mem).
           by eapply Forall_forall in Hu1.
        -- rewrite <- Hcmp; [done|]. rewrite Hu. list_mem.
        -- unfold deref. rewrite lookup_total_insert_eq.
           fold (deref h1 e) (deref h1 l).
           rewrite (Hkept l), (Hkept e); [done| |list_mem].
           apply elem_of_app. left. apply Hsub. rewrite Hu. list_mem.
    + by apply sublist_inserts_r.
    + by apply sublist_app.
    + rewrite Hperm. by rewrite !app_assoc.
  - exists srcs. cbn [store unique duplicates].
    split; [|split; [|split]].
    + eapply Forall2_impl; [exact Hcopies|]. cbn beta.
      intros x l0 (Hx & Hx0 & Hl0 & v1 & e0 & v2 & Hv & Hv1 & He0 & Hcopy).
      destruct (Hstay x Hx Hx0) as [Hx1 Hsame].
      split; [done|]. split; [done|]. split; [list_mem|].
      exists v1, e0, (v2 ++ [l]). split; [|by rewrite Hsame].
      rewrite Hv. by rewrite <- app_assoc.
    + by apply sublist_app.
    + by apply sublist_inserts_r.
    + rewrite Hperm. rewrite <- !app_assoc. apply Permutation_app_head.
      apply Permutation_app_comm.
Qed.

Lemma final_object leads l :
  allocated h leads → l ∈ leads →
  deref (store (dedupe d leads h)) l = with_id (deref h l).
Proof.
  intros Hall Hl. destruct (loop_inv_dedupe d h leads Hall) as (_ & Hobj & _).
  rewrite Hobj by by eapply Forall_forall in Hall. by rewrite decide_True.
Qed.

Lemma final_dup leads x y :
  allocated h leads → x ∈ leads → y ∈ leads →
  isDuplicate d (deref (store (dedupe d leads h)) x)
                (deref (store (dedupe d leads h)) y)
  = dup_in d h x y.
Proof. intros Hall Hx Hy. apply dup_in_with_id; by apply final_object. Qed.

Lemma unique_in_leads leads e :
  allocated h leads → e ∈ unique (dedupe d leads h) → e ∈ leads.
Proof.
  intros Hall. destruct (loop_inv_dedupe d h leads Hall) as (_ & _ & _ & Hsub & _).
  apply Hsub.
Qed.

End Structure.

Lemma Forall2_elem_of_l {A B} (R : A → B → Prop) (xs : list A) (ys : list B) (x : A) :
  Forall2 R xs ys → x ∈ xs → ∃ y, y ∈ ys ∧ R x y.
Proof.
  induction 1 as [|x0 y0 xs ys HR _ IH]; [by intros ?%elem_of_nil|].
  intros [->|Hx]%elem_of_cons.
  - exists y0. split; [list_mem | done].
  - destruct (IH Hx) as (y & Hy & Hxy). exists y. split; [list_mem | done].
Qed.

Section Partition.

Variable d : Deduplicator.
Variable h : heap.

(** The result of [dedupe] on the final store: the leads that went to
    [duplicates], in the order of their copies, and what each copy holds. *)
Lemma dedupe_partition (leads : list loc) :
  allocated h leads →
  ∃ srcs : list loc,
    Forall2 (λ x l,
       (x ∉ dom h) ∧ (x ∉ leads) ∧ l ∈ leads
       ∧ ∃ (u1 : list loc) (e : loc) (u2 : list loc),
           unique (dedupe d leads h) = u1 ++ e :: u2
           ∧ Forall (λ y, isDuplicate d (deref (store (dedupe d leads h)) l)
                            (deref (store (dedupe d leads h)) y) = false) u1
           ∧ isDuplicate d (deref (store (dedupe d leads h)) l)
               (deref (store (dedupe d leads h)) e) = true
           ∧ deref (store (dedupe d leads h)) x
             = (<["duplicateOf" := get (deref (store (dedupe d leads h)) e) "id"]>
                  (deref (store (dedupe d leads h)) l)))
      (duplicates (dedupe d leads h)) srcs
    ∧ unique (dedupe d leads h) `sublist_of` leads
    ∧ srcs `sublist_of` leads
    ∧ leads ≡ₚ unique (dedupe d leads h) ++ srcs.
Proof.
  intros Hall.
  destruct (dedupe_structure d h leads Hall) as (srcs & Hcopies & Hu & Hs & Hp).
  exists srcs. split; [|done].
  eapply Forall2_impl; [exact Hcopies|]. cbn beta.
  intros x l (_ & Hx0 & Hl & u1 & e & u2 & Huniq & Hu1 & He & Hcopy).
  assert (Hin : ∀ y, y ∈ u1 ++ e :: u2 → y ∈ leads).
  { intros y Hy. apply (unique_in_leads d h leads y Hall). by rewrite Huniq. }
  split; [done|]. split.
  { intros Hxl. apply Hx0. by eapply Forall_forall in Hall. }
  split; [done|]. exists u1, e, u2. split; [done|]. split; [|split].
  - apply Forall_forall. intros y Hy. eapply Forall_forall in Hu1; [|exact Hy].
    rewrite final_dup; [done..|]. apply Hin. list_mem.
  - rewrite final_dup; [done..|]. apply Hin. list_mem.
  - rewrite Hcopy. rewrite !final_object; [done..|]. apply Hin. list_mem.
Qed.

End Partition.

(** ** Results on the batch loop *)

(** C7: the lengths of the two arrays add up to the length of the input,
    and every input lead lands in exactly one of them: the input is, lead
    for lead, the [unique] array together with the leads whose copies make
    up [duplicates], each copy a new object that holds its lead's properties
    and [duplicateOf]. *)
Theorem count_conservation (d : Deduplicator) (leads : list loc) (h : heap) :
  length (unique (dedupe d leads h)) + length (duplicates (dedupe d leads h))
  = length leads
  ∧ (allocated h leads →
     ∃ srcs : list loc,
       Forall2 (λ x l,
          (x ∉ dom h)
          ∧ ∃ e, e ∈ unique (dedupe d leads h)
              ∧ deref (store (dedupe d leads h)) x
                = (<["duplicateOf" := get (deref (store (dedupe d leads h)) e) "id"]>
                     (deref (store (dedupe d leads h)) l)))
         (duplicates (dedupe d leads h)) srcs
       ∧ leads ≡ₚ unique (dedupe d leads h) ++ srcs).
Proof.
  split; [apply dedupe_length|]. intros Hall.
  destruct (dedupe_partition d h leads Hall) as (srcs & Hcopies & _ & _ & Hp).
  exists srcs. split; [|done].
  eapply Forall2_impl; [exact Hcopies|]. cbn beta.
  intros x l (Hx0 & _ & _ & u1 & e & u2 & Hu & _ & _ & Hcopy).
  split; [done|]. exists e. split; [|done]. rewrite Hu. list_mem.
Qed.

Lemma count_conservation_witness :
  let b := dedupe (constructor no_options) [1; 2; 3] test_leads in
  length (unique b) + length (duplicates b) = 3
  ∧ ∃ srcs : list loc,
      Forall2 (λ x l,
         (x ∉ dom test_leads)
         ∧ ∃ e, e ∈ unique b
             ∧ deref (store b) x
               = (<["duplicateOf" := get (deref (store b) e) "id"]>
                    (deref (store b) l)))
        (duplicates b) srcs
      ∧ [1; 2; 3] ≡ₚ unique b ++ srcs.
Proof.
  intros b.
  destruct (count_conservation (constructor no_options) [1; 2; 3] test_leads)
    as [Hlen Hpart].
  split; [exact Hlen|]. apply Hpart.
  repeat constructor; apply elem_of_dom; eexists; reflexivity.
Defined.

(** C2, as the code has it.  Every entry of [unique] is one of the input
    leads and carries a non-empty id after the call: the id it came with when
    that was non-empty, and otherwise its fingerprint.  The loop never
    compares ids. *)
Theorem unique_ids (d : Deduplicator) (leads : list loc) (h : heap) :
  allocated h leads →
  ∀ x, x ∈ unique (dedupe d leads h) →
    x ∈ leads
    ∧ truthy (get (deref (store (dedupe d leads h)) x) "id") = true
    ∧ get (deref (store (dedupe d leads h)) x) "id"
      = if truthy (get (deref h x) "id") then get (deref h x) "id"
        else VStr (generateId (deref h x)).
Proof.
  intros Hall x Hx.
  destruct (loop_inv_dedupe d h leads Hall) as (_ & Hobj & _ & Hsub & _).
  assert (x ∈ leads) as Hin by by apply Hsub.
  assert (x ∈ dom h) as Hdom by by eapply Forall_forall in Hall.
  rewrite (Hobj x Hdom), decide_True by done.
  split; [done|]. split; [apply with_id_truthy | apply with_id_id].
Qed.

Lemma unique_ids_witness :
  let b := dedupe (constructor no_options) [1; 2] short_title_leads in
  2 ∈ [1; 2]
  ∧ truthy (get (deref (store b) 2) "id") = true
  ∧ get (deref (store b) 2) "id"
    = VStr (generateId (deref short_title_leads 2)).
Proof.
  refine (unique_ids (constructor no_options) [1; 2] short_title_leads _ 2 _).
  - repeat constructor; apply elem_of_dom; eexists; reflexivity.
  - vm_compute. repeat constructor.
Defined.

(** C2 as stated fails: two unrelated leads that come with the same id both
    land in [unique]. *)
Lemma unique_ids_counterexample :
  ¬ distinct_ids (dedupe (constructor no_options) [1; 2] same_id_leads).
Proof.
  intros H. apply (H 0 1 1 2); [done| | |]; vm_compute; reflexivity.
Qed.

(** The same happens with ids that the loop assigns: two leads with equal
    fingerprints and titles without a word of three letters. *)
Example assigned_ids_collide :
  ¬ distinct_ids (dedupe (constructor no_options) [1; 2] short_title_leads).
Proof.
  intros H. apply (H 0 1 1 2); [done| | |]; vm_compute; reflexivity.
Qed.

Lemma compared_first_hit (d : Deduplicator) (h : heap) (l e : loc)
    (u1 u2 : list loc) :
  Forall (λ x, isDuplicate d (deref h l) (deref h x) = false) u1 →
  isDuplicate d (deref h l) (deref h e) = true →
  compared d h l (u1 ++ e :: u2) = u1 ++ [e].
Proof.
  intros Hu1 He. induction Hu1 as [|x u1 Hx _ IH]; simpl.
  - by rewrite He.
  - by rewrite Hx, IH.
Qed.

(** C6: the lead [l] that follows the leads [pre] in the input is compared
    with the entries of [unique] in their order.  At the first entry [e] it
    duplicates, one copy tagged with the id of [e] goes to [duplicates],
    [unique] stays as it is, and the entries after [e] are not looked at.
    When it duplicates no entry, it is appended to [unique]. *)
Theorem first_match_only (d : Deduplicator) (pre : list loc) (l : loc) (h : heap) :
  let st := dedupe d pre h in
  let h1 := assign_id (store st) l in
  let st' := dedupe d (pre ++ [l]) h in
  let dup := λ x, isDuplicate d (deref h1 l) (deref h1 x) in
  (∀ (u1 u2 : list loc) (e : loc),
     unique st = u1 ++ e :: u2 → Forall (λ x, dup x = false) u1 → dup e = true →
     compared d h1 l (unique st) = u1 ++ [e]
     ∧ unique st' = unique st
     ∧ duplicates st' = duplicates st ++ [fresh (dom h1)]
     ∧ (fresh (dom h1) ∉ dom h1)
     ∧ deref (store st') (fresh (dom h1))
       = (<["duplicateOf" := get (deref h1 e) "id"]> (deref h1 l)))
  ∧ (Forall (λ x, dup x = false) (unique st) →
     unique st' = unique st ++ [l] ∧ duplicates st' = duplicates st
     ∧ store st' = h1).
Proof.
  intros st h1 st' dup. subst st'. rewrite dedupe_snoc. fold st.
  unfold dedupe_step. fold h1. split.
  - intros u1 u2 e Hu Hu1 He. rewrite Hu.
    rewrite (first_duplicate_Some d h1 l u1 u2 e Hu1 He).
    cbn [store unique duplicates]. split; [by apply compared_first_hit|].
    split; [done|]. split; [done|]. split; [apply is_fresh|].
    unfold deref. by rewrite lookup_total_insert_eq.
  - intros Hnone. apply first_duplicate_None in Hnone. by rewrite Hnone.
Qed.

Lemma first_match_only_witness :
  let b := dedupe (constructor no_options) [1; 3] test_leads in
  let b' := dedupe (constructor no_options) ([1; 3] ++ [2]) test_leads in
  compared (constructor no_options) (assign_id (store b) 2) 2 (unique b) = [1]
  ∧ unique b' = unique b
  ∧ duplicates b' = duplicates b ++ [fresh (dom (assign_id (store b) 2))]
  ∧ (fresh (dom (assign_id (store b) 2)) ∉ dom (assign_id (store b) 2))
  ∧ deref (store b') (fresh (dom (assign_id (store b) 2)))
    = (<["duplicateOf" := get (deref (assign_id (store b) 2) 1) "id"]>
         (deref (assign_id (store b) 2) 2)).
Proof.
  refine (proj1 (first_match_only (constructor no_options) [1; 3] 2 test_leads)
            [] [3] 1 _ _ _).
  - vm_compute. reflexivity.
  - constructor.
  - vm_compute. reflexivity.
Defined.

(** C8: running [dedupe] on the [unique] array of a first run gives that same
    array back, in the same order, and no duplicates. *)
Theorem batch_idempotence (d : Deduplicator) (leads : list loc) (h : heap) :
  allocated h leads →
  let b := dedupe d leads h in
  let b' := dedupe d (unique b) (store b) in
  unique b' = unique b ∧ duplicates b' = [].
Proof.
  intros Hall b b'.
  destruct (loop_inv_dedupe d h leads Hall) as (Hdom & Hobj & Huniq & Hsub & _).
  fold b in Hdom, Hobj, Huniq, Hsub.
  assert (Hleads : Forall (λ x, x ∈ leads) (unique b)) by by apply Forall_forall.
  assert (Hall' : allocated (store b) (unique b)).
  { apply Forall_forall. intros e He. apply Hdom.
    eapply Forall_forall in Hall; [exact Hall | by apply Hsub]. }
  destruct (loop_inv_dedupe d (store b) (unique b) Hall') as (_ & _ & Huniq' & _).
  fold b' in Huniq'.
  assert (Hsame : unique b' = unique b).
  { rewrite Huniq'.
    rewrite (scan_ext (dup_in d (store b)) (dup_in d h) (λ x, x ∈ leads)); [|..|done].
    - rewrite Huniq. apply scan_idemp.
    - intros x y Hx Hy. unfold dup_in.
      rewrite !Hobj by by eapply Forall_forall in Hall.
      rewrite !decide_True by done.
      apply isDuplicate_content; apply with_id_content. }
  split; [done|].
  pose proof (dedupe_length d (unique b) (store b)) as Hlen.
  fold b' in Hlen. rewrite Hsame in Hlen.
  apply length_zero_iff_nil. lia.
Qed.

Lemma batch_idempotence_witness :
  let b := dedupe (constructor no_options) [1; 2; 3] test_leads in
  let b' := dedupe (constructor no_options) (unique b) (store b) in
  unique b' = unique b ∧ duplicates b' = [].
Proof.
  apply (batch_idempotence (constructor no_options) [1; 2; 3] test_leads).
  repeat constructor; apply elem_of_dom; eexists; reflexivity.
Defined.

(** C10: [dedupe] writes on the caller's objects, and only their id.  A lead
    without id carries its fingerprint after the call, whichever array it
    went to; a lead with an id is left as it was; no other property of a lead
    changes and the other objects of the heap are untouched.  The entries of
    [unique] are input leads.  The entries of [duplicates] are objects that
    did not exist before the call, one for each input lead that is not in
    [unique], in input order: the copy of a lead holds the properties of
    that very lead together with [duplicateOf], the id of the first entry of
    [unique] that the lead duplicates. *)
Theorem dedupe_mutates_ids (d : Deduplicator) (leads : list loc) (h : heap) :
  allocated h leads →
  let b := dedupe d leads h in
  (∀ l, l ∈ leads → truthy (get (deref h l) "id") = false →
     get (deref (store b) l) "id" = VStr (generateId (deref h l)))
  ∧ (∀ l, l ∈ leads → truthy (get (deref h l) "id") = true →
     deref (store b) l = deref h l)
  ∧ (∀ l (k : string), l ∈ leads → k ≠ "id" →
     deref (store b) l !! k = deref h l !! k)
  ∧ (∀ l, l ∈ dom h → l ∉ leads → deref (store b) l = deref h l)
  ∧ (∀ e, e ∈ unique b → e ∈ leads)
  ∧ (∃ srcs : list loc,
       Forall2 (λ x l,
          (x ∉ dom h) ∧ (x ∉ leads) ∧ l ∈ leads
          ∧ ∃ (u1 : list loc) (e : loc) (u2 : list loc),
              unique b = u1 ++ e :: u2
              ∧ Forall (λ y, isDuplicate d (deref (store b) l)
                               (deref (store b) y) = false) u1
              ∧ isDuplicate d (deref (store b) l) (deref (store b) e) = true
              ∧ deref (store b) x
                = (<["duplicateOf" := get (deref (store b) e) "id"]>
                     (deref (store b) l)))
         (duplicates b) srcs
       ∧ unique b `sublist_of` leads
       ∧ srcs `sublist_of` leads
       ∧ leads ≡ₚ unique b ++ srcs).
Proof.
  intros Hall b.
  destruct (loop_inv_dedupe d h leads Hall) as (Hdom & Hobj & _ & Hsub & _).
  fold b in Hdom, Hobj, Hsub.
  assert (Hin : ∀ l, l ∈ leads → l ∈ dom h).
  { intros l Hl. by eapply Forall_forall in Hall. }
  assert (Hfinal : ∀ l, l ∈ leads → deref (store b) l = with_id (deref h l)).
  { intros l Hl. rewrite Hobj by by apply Hin. by rewrite decide_True. }
  split; [|split; [|split; [|split; [|split]]]].
  - intros l Hl Hid. rewrite (Hfinal l Hl), with_id_id. by rewrite Hid.
  - intros l Hl Hid. rewrite (Hfinal l Hl). unfold with_id. by rewrite Hid.
  - intros l k Hl Hk. rewrite (Hfinal l Hl). by apply with_id_other.
  - intros l Hl Hnin. rewrite (Hobj l Hl). by rewrite decide_False.
  - exact Hsub.
  - exact (dedupe_partition d h leads Hall).
Qed.

Lemma dedupe_mutates_ids_witness :
  let b := dedupe (constructor no_options) [1; 2] no_id_leads in
  get (deref (store b) 2) "id" = VStr (generateId (deref no_id_leads 2))
  ∧ deref (store b) 2 !! "title" = deref no_id_leads 2 !! "title"
  ∧ ∃ srcs : list loc,
      Forall2 (λ x l,
         (x ∉ dom no_id_leads) ∧ (x ∉ [1; 2]) ∧ l ∈ [1; 2]
         ∧ ∃ (u1 : list loc) (e : loc) (u2 : list loc),
             unique b = u1 ++ e :: u2
             ∧ Forall (λ y, isDuplicate (constructor no_options)
                              (deref (store b) l) (deref (store b) y) = false) u1
             ∧ isDuplicate (constructor no_options)
                 (deref (store b) l) (deref (store b) e) = true
             ∧ deref (store b) x
               = (<["duplicateOf" := get (deref (store b) e) "id"]>
                    (deref (store b) l)))
        (duplicates b) srcs
      ∧ unique b `sublist_of` [1; 2]
      ∧ srcs `sublist_of` [1; 2]
      ∧ [1; 2] ≡ₚ unique b ++ srcs.
Proof.
  pose proof (dedupe_mutates_ids (constructor no_options) [1; 2] no_id_leads)
    as H.
  destruct H as (Hid & _ & Hother & _ & _ & Hdups).
  { repeat constructor; apply elem_of_dom; eexists; reflexivity. }
  split; [|split].
  - apply Hid; [repeat constructor | reflexivity].
  - apply Hother; [repeat constructor | discriminate].
  - exact Hdups.
Defined.

(** ** checkExisting *)

Section CheckExisting.

Variable d : Deduplicator.
Variable h : heap.
Implicit Types (l e : loc) (db : Database).

Lemma getLeadById_Some db (id : value) e :
getLeadById h db id = Some e →
e ∈ data_leads db ∧ get (deref h e) "id" = id.
Proof.
unfold getLeadById. intros [Hin Heq]%find_some. split.
- by apply list_elem_of_In.
- by apply bool_decide_eq_true in Heq.
Qed.

Lemma check_similar_first l (pre post : list loc) e :
Forall (λ x, isDuplicate d (deref h l) (deref h x) = false) pre →
isDuplicate d (deref h l) (deref h e) = true →
check_similar d h l (pre ++ e :: post)
= {| exists_ := true; lead := Some e; similar := Some true |}.
Proof.
intros Hpre He. induction Hpre as [|x pre Hx _ IH]; simpl.
- by rewrite He.
- by rewrite Hx.
Qed.

Lemma check_similar_none l (stored : list loc) :
exists_ (check_similar d h l stored) = false
↔ Forall (λ x, isDuplicate d (deref h l) (deref h x) = false) stored.
Proof.
induction stored as [|x stored IH]; simpl.
- split; [constructor | done].
- destruct (isDuplicate d (deref h l) (deref h x)) eqn:E; simpl.
  + split; [done|]. inversion 1; congruence.
  + rewrite IH. split; [by constructor | by inversion 1].
Qed.

End CheckExisting.

(** C9: [checkExisting] first looks the id up; a hit is answered with the
    stored record of that id, whatever the detector, and without the
    [similar] flag.  On a miss the stored records are tried in the order of
    the store, and the first one that [isDuplicate] accepts is answered with
    [similar: true].  The answer is [exists: false] exactly when the lookup
    misses and no stored record is accepted. *)
Theorem checkExisting_spec (d : Deduplicator) (h : heap) (l : loc) (db : Database) :
  let id := get (deref h l) "id" in
  let dup := λ x, isDuplicate d (deref h l) (deref h x) in
  (∀ e, getLeadById h db id = Some e →
     e ∈ getAllLeads db ∧ get (deref h e) "id" = id
     ∧ ∀ d', checkExisting d' h l db
             = {| exists_ := true; lead := Some e; similar := None |})
  ∧ (getLeadById h db id = None →
     ∀ (pre post : list loc) (e : loc),
       getAllLeads db = pre ++ e :: post →
       Forall (λ x, dup x = false) pre → dup e = true →
       checkExisting d h l db
       = {| exists_ := true; lead := Some e; similar := Some true |})
  ∧ (exists_ (checkExisting d h l db) = false
     ↔ getLeadById h db id = None ∧ Forall (λ x, dup x = false) (getAllLeads db)).
Proof.
  intros id dup. unfold checkExisting. fold id. split; [|split].
  - intros e He. destruct (getLeadById_Some h db id e He) as [Hin Hid].
    split; [done|]. split; [done|]. intros d'. by rewrite He.
  - intros Hmiss pre post e Hall Hpre He. rewrite Hmiss, Hall.
    by apply check_similar_first.
  - destruct (getLeadById h db id) as [e|] eqn:E; simpl.
    + split; [done | by intros [? _]].
    + rewrite check_similar_none. split; [done | by intros [_ ?]].
Qed.

Lemma checkExisting_spec_witness :
  checkExisting (constructor no_options) test_leads 2 {| data_leads := [3; 1] |}
  = {| exists_ := true; lead := Some 1; similar := Some true |}.
Proof.
  refine (proj1 (proj2 (checkExisting_spec (constructor no_options) test_leads 2
                          {| data_leads := [3; 1] |})) _ [3] [] 1 _ _ _).
  - vm_compute. reflexivity.
  - reflexivity.
  - constructor; [vm_compute; reflexivity | constructor].
  - vm_compute. reflexivity.
Defined.

(** * Further properties of the deduplicator *)

(** ** The scorer: symmetry and range *)

Section TokenSets.

Implicit Types X Y : gset string.

Lemma filter_elem_of X Y : filter (λ x, x ∈ Y) X = X ∩ Y.
Proof. apply set_eq. intros x. rewrite elem_of_filter, elem_of_intersection. tauto. Qed.

Lemma size_inter_le_union X Y : (size (X ∩ Y) ≤ size (X ∪ Y))%nat.
Proof. apply subseteq_size. set_solver. Qed.

Lemma list_to_set_empty_iff (ws : list string) :
  (list_to_set ws : gset string) = ∅ ↔ ws = [].
Proof.
  split; [|by intros ->].
  destruct ws as [|w ws]; [done|]. intros H.
  assert (w ∈ (list_to_set (w :: ws) : gset string)) as Hw by set_solver.
  rewrite H in Hw. set_solver.
Qed.

Lemma union_empty_iff X Y : X ∪ Y = ∅ ↔ X = ∅ ∧ Y = ∅.
Proof. set_solver. Qed.

End TokenSets.

Lemma jaccardSimilarity_sets (a b : value) :
  jaccardSimilarity a b
  = div_size (size ((list_to_set (tokenize a) : gset string) ∩ list_to_set (tokenize b)))
             (size ((list_to_set (tokenize a) : gset string) ∪ list_to_set (tokenize b))).
Proof. unfold jaccardSimilarity. by rewrite filter_elem_of. Qed.

Lemma Num_eq_iff (q r : Q) : Num q = Num r ↔ q = r.
Proof. split; [by intros [= ->] | by intros ->]. Qed.

Lemma Qred_eq_iff (r c : Q) : Qred c = c → (Qred r = c ↔ (r == c)%Q).
Proof.
  intros Hc. split.
  - intros <-. symmetry. apply Qred_correct.
  - intros Hr. rewrite <- Hc. by apply Qred_complete.
Qed.

Lemma div_size_Num (a b : nat) :
  b ≠ 0 → (a ≤ b)%nat →
  ∃ q, div_size a b = Num q ∧ (0 <= q <= 1)%Q
       ∧ (q = 0%Q ↔ a = 0) ∧ (q = 1%Q ↔ a = b).
Proof.
  intros Hb Hab. destruct b as [|m]; [done|]. unfold div_size.
  eexists. split; [reflexivity|].
  assert (Hp : Z.pos (Pos.of_nat (S m)) = Z.of_nat (S m)).
  { rewrite <- Pos.of_nat_succ. by rewrite Zpos_P_of_succ_nat, Nat2Z.inj_succ. }
  rewrite !(Qred_eq_iff _ _ eq_refl), !Qred_correct.
  unfold Qle, Qeq. cbn [Qnum Qden].
  rewrite Hp. repeat split; intros; lia.
Qed.

Lemma jaccardSimilarity_comm (a b : value) :
  jaccardSimilarity a b = jaccardSimilarity b a.
Proof.
  rewrite !jaccardSimilarity_sets.
  by rewrite (intersection_comm_L (list_to_set (tokenize a))),
             (union_comm_L (list_to_set (tokenize a))).
Qed.

(** X1: the similarity of two strings does not depend on their order. *)
Theorem similarity_symmetric (a b : value) :
  jaccardSimilarity a b = jaccardSimilarity b a.
Proof. apply jaccardSimilarity_comm. Qed.

(** X2: the similarity is never [Infinity].  It is [NaN] exactly when neither
    string has a token, and otherwise a fraction between 0 and 1. *)
Theorem similarity_range (a b : value) :
  (jaccardSimilarity a b = NaN ∧ tokenize a = [] ∧ tokenize b = [])
  ∨ (∃ q, jaccardSimilarity a b = Num q ∧ (0 <= q <= 1)%Q
          ∧ (tokenize a ≠ [] ∨ tokenize b ≠ [])).
Proof.
  rewrite jaccardSimilarity_sets.
  set (X := list_to_set (tokenize a) : gset string).
  set (Y := list_to_set (tokenize b) : gset string).
  destruct (decide (X ∪ Y = ∅)) as [He|Hne].
  - left. apply union_empty_iff in He as [HX HY].
    rewrite HX, HY. split; [done|]. split; by apply list_to_set_empty_iff.
  - right.
    destruct (div_size_Num (size (X ∩ Y)) (size (X ∪ Y))) as (q & Hq & Hr & _).
    { rewrite size_non_empty_iff. intros H. by apply Hne, leibniz_equiv. }
    { apply size_inter_le_union. }
    exists q. split; [done|]. split; [done|].
    destruct (tokenize a) as [|w ws] eqn:Ea; [|by left].
    destruct (tokenize b) as [|w ws] eqn:Eb; [|by right].
    exfalso. apply Hne. subst X Y. set_solver.
Qed.

(** X3: when one of the strings has a token, the similarity is 1 exactly when
    the two strings have the same tokens, and 0 exactly when they share
    none. *)
Theorem similarity_extremes (a b : value) :
  tokenize a ≠ [] ∨ tokenize b ≠ [] →
  (jaccardSimilarity a b = Num 1 ↔ ∀ w, w ∈ tokenize a ↔ w ∈ tokenize b)
  ∧ (jaccardSimilarity a b = Num 0 ↔ ∀ w, w ∈ tokenize a → w ∉ tokenize b).
Proof.
  intros Hne. rewrite jaccardSimilarity_sets.
  set (X := list_to_set (tokenize a) : gset string).
  set (Y := list_to_set (tokenize b) : gset string).
  assert (HX : ∀ w, w ∈ tokenize a ↔ w ∈ X) by (intros w; subst X; set_solver).
  assert (HY : ∀ w, w ∈ tokenize b ↔ w ∈ Y) by (intros w; subst Y; set_solver).
  assert (Hu : size (X ∪ Y) ≠ 0).
  { rewrite size_non_empty_iff. intros H.
    destruct Hne as [Hne|Hne]; apply Hne.
    - destruct (tokenize a) as [|w ws]; [done|]. specialize (HX w). set_solver.
    - destruct (tokenize b) as [|w ws]; [done|]. specialize (HY w). set_solver. }
  destruct (div_size_Num (size (X ∩ Y)) (size (X ∪ Y)) Hu (size_inter_le_union X Y))
    as (q & -> & _ & H0 & H1).
  split.
  - rewrite Num_eq_iff, H1. split.
    + intros Hsz. assert (X ∩ Y = X ∪ Y) as Heq.
      { apply set_subseteq_size_eq; [set_solver|]. by rewrite Hsz. }
      intros w. rewrite HX, HY. set_solver.
    + intros Hsame.
      assert (X = Y) as -> by (apply set_eq; intros w; by rewrite <- HX, <- HY).
      by rewrite (intersection_idemp_L Y), (union_idemp_L Y).
  - rewrite Num_eq_iff, H0, size_empty_iff. split.
    + intros Hdis w. rewrite HX, HY. set_solver.
    + intros Hdis. apply set_equiv. intros w.
      specialize (Hdis w). rewrite HX, HY in Hdis. set_solver.
Qed.

Lemma similarity_extremes_witness :
  jaccardSimilarity (VStr "Ads help needed!") (VStr "NEEDED: ads, help") = Num 1
  ∧ jaccardSimilarity (VStr "Ads help") (VStr "shopify store") = Num 0.
Proof.
  split.
  - refine (proj2 (proj1 (similarity_extremes (VStr "Ads help needed!")
                            (VStr "NEEDED: ads, help") _)) _).
    + left. vm_compute. discriminate.
    + assert (tokenize (VStr "Ads help needed!") = ["ads"; "help"; "needed"]) as ->
        by (vm_compute; reflexivity).
      assert (tokenize (VStr "NEEDED: ads, help") = ["needed"; "ads"; "help"]) as ->
        by (vm_compute; reflexivity).
      intros w. list_mem.
  - refine (proj2 (proj2 (similarity_extremes (VStr "Ads help")
                            (VStr "shopify store") _)) _).
    + left. vm_compute. discriminate.
    + assert (tokenize (VStr "Ads help") = ["ads"; "help"]) as ->
        by (vm_compute; reflexivity).
      assert (tokenize (VStr "shopify store") = ["shopify"; "store"]) as ->
        by (vm_compute; reflexivity).
      intros w. list_mem.
Defined.

(** ** The classifier is symmetric *)

Lemma strict_eq_comm (a b : value) : strict_eq a b = strict_eq b a.
Proof. unfold strict_eq. by apply bool_decide_ext. Qed.

Lemma same_url_comm (lead1 lead2 : obj) : same_url lead1 lead2 = same_url lead2 lead1.
Proof.
  unfold same_url. rewrite (strict_eq_comm (get lead1 "url")).
  by destruct (truthy (get lead1 "url")), (truthy (get lead2 "url")).
Qed.

Lemma isDuplicate_comm (d : Deduplicator) (lead1 lead2 : obj) :
  isDuplicate d lead1 lead2 = isDuplicate d lead2 lead1.
Proof.
  unfold isDuplicate, similar_title, titleSim, similarity.
  by rewrite (same_url_comm lead1), (strict_eq_comm (get lead1 "source")),
             (jaccardSimilarity_comm (get lead1 "title")),
             (jaccardSimilarity_comm (VStr (content lead1))).
Qed.

(** X4: [isDuplicate] gives the same answer whichever lead comes first. *)
Theorem isDuplicate_symmetric (d : Deduplicator) (lead1 lead2 : obj) :
  isDuplicate d lead1 lead2 = isDuplicate d lead2 lead1.
Proof. apply isDuplicate_comm. Qed.

(** ** The shape of tokens *)

Lemma all_chars_app (p : ascii → bool) (s t : string) :
  all_chars p (s +:+ t) = all_chars p s && all_chars p t.
Proof. induction s as [|c s IH]; simpl; [done|]. by rewrite IH, andb_assoc. Qed.

Lemma all_chars_map (p : ascii → bool) (f : ascii → ascii) (s : string) :
  all_chars p (Str.map f s) = all_chars (λ c, p (f c)) s.
Proof. induction s as [|c s IH]; simpl; [done|]. by rewrite IH. Qed.

Lemma all_chars_true (p : ascii → bool) (s : string) :
  (∀ c, p c = true) → all_chars p s = true.
Proof. intros Hp. induction s as [|c s IH]; simpl; [done|]. by rewrite Hp, IH. Qed.

Lemma split_from_chars (p : ascii → bool) (s cur : string) (insep : bool) :
  all_chars p cur = true →
  all_chars (λ c, Str.is_space c || p c) s = true →
  Forall (λ w, all_chars p w = true) (Str.split_from s cur insep).
Proof.
  revert cur insep. induction s as [|c s IH]; intros cur insep Hcur Hs; simpl.
  - by constructor.
  - simpl in Hs. apply andb_true_iff in Hs as [Hc Hs].
    destruct (Str.is_space c) eqn:Esp.
    + destruct insep; [by apply IH|]. constructor; [done|]. by apply IH.
    + apply IH; [|done]. rewrite all_chars_app, Hcur. simpl in *. by rewrite Hc.
Qed.

Lemma normalised_char (c : ascii) :
  stripped_ok (Str.lower_char c) = true.
Proof. destruct c as [[] [] [] [] [] [] [] []]; vm_compute; reflexivity. Qed.

Lemma toLowerCase_cons (c : ascii) (s1 : string) :
  Str.toLowerCase (String c s1)
  = match s1 with
    | String c1 s2 =>
        if (Str.code c =? 196)%N && (Str.code c1 =? 176)%N
        then String "i" (String (ascii_of_N 204) (String (ascii_of_N 135)
               (Str.toLowerCase s2)))
        else
          match s2 with
          | String c2 s3 =>
              if (Str.code c =? 226)%N && (Str.code c1 =? 132)%N
                 && (Str.code c2 =? 170)%N
              then String "k" (Str.toLowerCase s3)
              else String (Str.lower_char c) (Str.toLowerCase s1)
          | EmptyString => String (Str.lower_char c) (Str.toLowerCase s1)
          end
    | EmptyString => String (Str.lower_char c) EmptyString
    end.
Proof. by destruct s1 as [|c1 [|c2 s3]]. Qed.

(** The recursion of [toLowerCase] skips up to three bytes, so the induction
    is on a bound of the length. *)
Lemma toLowerCase_chars (n : nat) (s : string) :
  (String.length s ≤ n)%nat →
  all_chars stripped_ok (Str.toLowerCase s) = true.
Proof.
  revert s. induction n as [|n IH]; intros s Hn.
  { destruct s; [done | simpl in Hn; lia]. }
  destruct s as [|c s1]; [done|]. rewrite toLowerCase_cons.
  assert (Hrest : all_chars stripped_ok (Str.toLowerCase s1) = true)
    by (apply IH; simpl in Hn; lia).
  assert (Hc : all_chars stripped_ok (String (Str.lower_char c) (Str.toLowerCase s1))
               = true).
  { cbn [all_chars]. by rewrite normalised_char, Hrest. }
  destruct s1 as [|c1 s2].
  { cbn [all_chars]. by rewrite normalised_char. }
  destruct ((Str.code c =? 196)%N && (Str.code c1 =? 176)%N).
  { cbn [all_chars]. rewrite IH by (simpl in Hn; lia). reflexivity. }
  destruct s2 as [|c2 s3]; [done|].
  destruct ((Str.code c =? 226)%N && (Str.code c1 =? 132)%N && (Str.code c2 =? 170)%N);
    [|done].
  cbn [all_chars]. rewrite IH by (simpl in Hn; lia). reflexivity.
Qed.

(** X5: every token is at least three characters long and is made of digits,
    lower-case letters and underscores only. *)
Theorem tokenize_shape (text : value) (w : string) :
  w ∈ tokenize text →
  (3 ≤ String.length w)%nat ∧ all_chars is_token_char w = true.
Proof.
  unfold tokenize. intros [Hlen Hin]%list_elem_of_filter. split; [lia|].
  clear Hlen. revert w Hin. apply Forall_forall. unfold Str.split_ws.
  apply split_from_chars; [done|].
  unfold Str.strip_punct. rewrite all_chars_map.
  by apply (toLowerCase_chars (String.length (to_string (or text (VStr ""))))).
Qed.

Lemma tokenize_shape_witness :
  (3 ≤ String.length "facebook")%nat ∧ all_chars is_token_char "facebook" = true.
Proof.
  apply (tokenize_shape (VStr "Need FACEBOOK-Ads help")).
  vm_compute. repeat constructor.
Defined.

(** ** The fingerprint *)

Lemma hexd_hex (x : Z) : is_hex_digit (Sha256.hexd x) = true.
Proof.
  unfold Sha256.hexd.
  assert (0 ≤ x mod 16 < 16)%Z as Hd by (apply Z.mod_pos_bound; lia).
  assert (∃ n : nat, (n < 16)%nat ∧ (x mod 16)%Z = Z.of_nat n) as (n & Hn & ->).
  { exists (Z.to_nat (x mod 16)). lia. }
  do 16 (destruct n as [|n]; [vm_compute; reflexivity|]). lia.
Qed.

Lemma generateId_hex (o : obj) : all_chars is_hex_digit (generateId o) = true.
Proof.
  unfold generateId, Sha256.sha256_hex.
  destruct (Sha256.digest _). cbn [Sha256.hex Sha256.hex8 Str.take all_chars
    Sha256.sa Sha256.sb Sha256.sc Sha256.sd Sha256.se Sha256.sf Sha256.sg Sha256.sh].
  by rewrite !hexd_hex.
Qed.

(** X6: a fingerprint is a string of 16 lower-case hexadecimal digits. *)
Theorem fingerprint_shape (lead : obj) :
  String.length (generateId lead) = 16
  ∧ all_chars is_hex_digit (generateId lead) = true.
Proof. split; [apply generateId_length | apply generateId_hex]. Qed.

Lemma assign_id_idemp (h : heap) (l : loc) : assign_id (assign_id h l) l = assign_id h l.
Proof.
  unfold assign_id at 1. fold (deref (assign_id h l) l).
  by rewrite deref_assign_id, with_id_truthy.
Qed.

(** X7: the fingerprint reads the source, the url and the title (the text
    when the title is empty) and nothing else: two leads that agree on
    [source], [url || ''] and [title || text || ''] get the same one.  Writing
    the id on a lead does not change the lead's fingerprint, and the id step
    does nothing the second time. *)
Theorem fingerprint_stable (h : heap) (l : loc) :
  (∀ lead1 lead2 : obj,
     get lead1 "source" = get lead2 "source" →
     or (get lead1 "url") (VStr "") = or (get lead2 "url") (VStr "") →
     or (or (get lead1 "title") (get lead1 "text")) (VStr "")
     = or (or (get lead2 "title") (get lead2 "text")) (VStr "") →
     generateId lead1 = generateId lead2)
  ∧ generateId (deref (assign_id h l) l) = generateId (deref h l)
  ∧ assign_id (assign_id h l) l = assign_id h l.
Proof.
  split; [|split].
  - intros lead1 lead2 Hs Hu Ht. unfold generateId. by rewrite Hs, Hu, Ht.
  - rewrite deref_assign_id. apply generateId_content, with_id_content.
  - apply assign_id_idemp.
Qed.

Lemma fingerprint_stable_witness :
  generateId (object [("source", "reddit"); ("title", "PM"); ("text", "one")])
  = generateId (object [("source", "reddit"); ("url", ""); ("title", "PM");
                        ("text", "another"); ("id", "7")]).
Proof.
  apply (proj1 (fingerprint_stable ∅ 0)); reflexivity.
Defined.

Lemma existsb_false_Forall (f : loc → bool) (ls : list loc) :
  existsb f ls = false → Forall (λ x, f x = false) ls.
Proof.
  induction ls as [|x ls IH]; simpl; [constructor|].
  intros [Hx Hls]%orb_false_iff. constructor; auto.
Qed.

(** X8: no two entries of [unique] are duplicates of each other: an entry
    duplicates none of the entries before it, in either order of the
    arguments of [isDuplicate]. *)
Theorem unique_pairwise_distinct (d : Deduplicator) (leads : list loc) (h : heap)
    (u1 u2 : list loc) (y : loc) :
  allocated h leads →
  unique (dedupe d leads h) = u1 ++ y :: u2 →
  Forall (λ x,
      isDuplicate d (deref (store (dedupe d leads h)) y)
                    (deref (store (dedupe d leads h)) x) = false
      ∧ isDuplicate d (deref (store (dedupe d leads h)) x)
                      (deref (store (dedupe d leads h)) y) = false) u1.
Proof.
  intros Hall Hu.
  assert (Hin : ∀ x, x ∈ u1 ++ y :: u2 → x ∈ leads).
  { intros x Hx. apply (unique_in_leads d h leads x Hall). by rewrite Hu. }
  destruct (loop_inv_dedupe d h leads Hall) as (_ & _ & Huniq & _).
  rewrite Huniq in Hu. apply scan_first_kept, existsb_false_Forall in Hu.
  apply Forall_forall. intros x Hx. eapply Forall_forall in Hu; [|exact Hx].
  assert (isDuplicate d (deref (store (dedupe d leads h)) y)
                        (deref (store (dedupe d leads h)) x) = false) as Hyx.
  { rewrite final_dup; [done|done|apply Hin; list_mem|apply Hin; list_mem]. }
  split; [done|]. by rewrite isDuplicate_comm.
Qed.

Lemma allocated_heap_of (objs : list obj) (leads : list loc) :
  forallb (λ l, Nat.leb 1 l && Nat.leb l (length objs)) leads = true →
  allocated (heap_of objs) leads.
Proof.
  intros H. apply Forall_forall. intros l Hl.
  rewrite forallb_forall in H. specialize (H l (proj1 (list_elem_of_In _ _) Hl)).
  apply andb_true_iff in H as [H1 H2].
  apply Nat.leb_le in H1, H2.
  apply elem_of_dom. unfold heap_of.
  destruct (objs !! (l - 1)) as [o|] eqn:E.
  - exists o. apply elem_of_list_to_map.
    + rewrite fst_zip by (rewrite length_seq; lia). apply NoDup_seq.
    + apply list_elem_of_lookup. exists (l - 1).
      rewrite lookup_zip_with, lookup_seq_lt by lia. rewrite E. simpl.
      f_equal. f_equal. lia.
  - apply lookup_ge_None in E. lia.
Qed.

Lemma unique_pairwise_distinct_witness :
  let b := dedupe (constructor no_options) [1; 2; 3] test_leads in
  Forall (λ x, isDuplicate (constructor no_options)
                 (deref (store b) 3) (deref (store b) x) = false
               ∧ isDuplicate (constructor no_options)
                   (deref (store b) x) (deref (store b) 3) = false) [1].
Proof.
  apply (unique_pairwise_distinct (constructor no_options) [1; 2; 3] test_leads
           [1] [] 3).
  - by apply allocated_heap_of.
  - vm_compute. reflexivity.
Defined.

(** X9: the entries of [duplicates] are new objects, one for each input
    lead that is not in [unique].  The copy of a lead holds that lead's
    properties and adds [duplicateOf], a non-empty id: the id of the first
    entry of the final [unique] array that the lead duplicates.  The lead
    itself gets no [duplicateOf]. *)
Theorem duplicate_of_first_match (d : Deduplicator) (leads : list loc) (h : heap) :
  allocated h leads →
  let b := dedupe d leads h in
  ∃ srcs : list loc,
    Forall2 (λ x l,
       (x ∉ dom h) ∧ (x ∉ leads) ∧ l ∈ leads
       ∧ deref (store b) l !! "duplicateOf" = deref h l !! "duplicateOf"
       ∧ ∃ (u1 : list loc) (e : loc) (u2 : list loc),
           unique b = u1 ++ e :: u2
           ∧ deref (store b) x
             = (<["duplicateOf" := get (deref (store b) e) "id"]> (deref (store b) l))
           ∧ truthy (get (deref (store b) x) "duplicateOf") = true
           ∧ isDuplicate d (deref (store b) l) (deref (store b) e) = true
           ∧ Forall (λ y, isDuplicate d (deref (store b) l) (deref (store b) y) = false) u1)
      (duplicates b) srcs
    ∧ leads ≡ₚ unique b ++ srcs.
Proof.
  intros Hall b.
  destruct (dedupe_partition d h leads Hall) as (srcs & Hcopies & _ & _ & Hp).
  fold b in Hcopies, Hp.
  exists srcs. split; [|done].
  eapply Forall2_impl; [exact Hcopies|]. cbn beta.
  intros x l (Hx0 & Hxl & Hl & u1 & e & u2 & Hu & Hu1 & He & Hcopy).
  assert (He' : deref (store b) e = with_id (deref h e)).
  { apply final_object; [done|]. apply (unique_in_leads d h leads e Hall).
    fold b. rewrite Hu. list_mem. }
  split; [done|]. split; [done|]. split; [done|]. split.
  { subst b. rewrite final_object by done. by apply with_id_other. }
  exists u1, e, u2. split; [done|]. split; [done|]. split; [|done].
  rewrite Hcopy, get_insert_eq, He'. apply with_id_truthy.
Qed.

Lemma duplicate_of_first_match_witness :
  let b := dedupe (constructor no_options) [1; 3; 2] test_leads in
  ∃ srcs : list loc,
    Forall2 (λ x l,
       (x ∉ dom test_leads) ∧ (x ∉ [1; 3; 2]) ∧ l ∈ [1; 3; 2]
       ∧ deref (store b) l !! "duplicateOf" = deref test_leads l !! "duplicateOf"
       ∧ ∃ (u1 : list loc) (e : loc) (u2 : list loc),
           unique b = u1 ++ e :: u2
           ∧ deref (store b) x
             = (<["duplicateOf" := get (deref (store b) e) "id"]> (deref (store b) l))
           ∧ truthy (get (deref (store b) x) "duplicateOf") = true
           ∧ isDuplicate (constructor no_options) (deref (store b) l) (deref (store b) e) = true
           ∧ Forall (λ y, isDuplicate (constructor no_options)
                            (deref (store b) l) (deref (store b) y) = false) u1)
      (duplicates b) srcs
    ∧ [1; 3; 2] ≡ₚ unique b ++ srcs.
Proof.
  apply (duplicate_of_first_match (constructor no_options) [1; 3; 2] test_leads).
  by apply allocated_heap_of.
Defined.

(** X10: the two arrays keep the input order and split the input: [unique]
    is a subsequence of the input, the leads copied into [duplicates] are a
    subsequence of the input in the order of their copies, and together the
    two are the input, lead for lead.  A copy differs from its lead in
    [duplicateOf] only. *)
Theorem order_preserved (d : Deduplicator) (leads : list loc) (h : heap) :
  allocated h leads →
  let b := dedupe d leads h in
  ∃ srcs : list loc,
    Forall2 (λ x l, ∀ k : string, k ≠ "duplicateOf" →
                      deref (store b) x !! k = deref (store b) l !! k)
      (duplicates b) srcs
    ∧ unique b `sublist_of` leads
    ∧ srcs `sublist_of` leads
    ∧ leads ≡ₚ unique b ++ srcs.
Proof.
  intros Hall b.
  destruct (dedupe_structure d h leads Hall) as (srcs & Hcopies & Hu & Hs & Hp).
  exists srcs. split; [|done].
  eapply Forall2_impl; [exact Hcopies|]. cbn beta.
  intros x l (_ & _ & Hl & u1 & e & u2 & _ & _ & _ & Hcopy) k Hk.
  fold b in Hcopy. rewrite Hcopy, lookup_insert_ne by done.
  subst b. by rewrite final_object.
Qed.

Lemma order_preserved_witness :
  let b := dedupe (constructor no_options) [1; 2; 3] test_leads in
  ∃ srcs : list loc,
    Forall2 (λ x l, ∀ k : string, k ≠ "duplicateOf" →
                      deref (store b) x !! k = deref (store b) l !! k)
      (duplicates b) srcs
    ∧ unique b `sublist_of` [1; 2; 3]
    ∧ srcs `sublist_of` [1; 2; 3]
    ∧ [1; 2; 3] ≡ₚ unique b ++ srcs.
Proof.
  apply (order_preserved (constructor no_options) [1; 2; 3] test_leads).
  by apply allocated_heap_of.
Defined.

Lemma dedupe_step_extends (d : Deduplicator) (st : Batch) (l : loc) :
  unique st `prefix_of` unique (dedupe_step d st l)
  ∧ duplicates st `prefix_of` duplicates (dedupe_step d st l).
Proof.
  unfold dedupe_step. destruct (first_duplicate _ _ _ _); cbn [unique duplicates];
    split; try done; by apply prefix_app_r.
Qed.

(** X11: a later lead never changes what was decided for the earlier ones:
    the arrays computed for a prefix of the input are prefixes of the arrays
    computed for the whole input. *)
Theorem dedupe_online (d : Deduplicator) (pre post : list loc) (h : heap) :
  unique (dedupe d pre h) `prefix_of` unique (dedupe d (pre ++ post) h)
  ∧ duplicates (dedupe d pre h) `prefix_of` duplicates (dedupe d (pre ++ post) h).
Proof.
  induction post as [|l post IH] using rev_ind.
  - by rewrite app_nil_r.
  - rewrite app_assoc, dedupe_snoc. destruct IH as [IHu IHd].
    destruct (dedupe_step_extends d (dedupe d (pre ++ post) h) l) as [Hu Hd].
    split; etrans; eauto.
Qed.

(** X12: ids play no part in the split.  Two heaps whose leads agree on
    [source], [url], [title] and [text] give the same [unique] array and as
    many duplicates. *)
Theorem ids_do_not_matter (d : Deduplicator) (leads : list loc) (h h' : heap) :
  allocated h leads → allocated h' leads →
  (∀ l, l ∈ leads → same_content (deref h l) (deref h' l)) →
  unique (dedupe d leads h) = unique (dedupe d leads h')
  ∧ length (duplicates (dedupe d leads h)) = length (duplicates (dedupe d leads h')).
Proof.
  intros Hall Hall' Hsame.
  destruct (loop_inv_dedupe d h leads Hall) as (_ & _ & Hu & _).
  destruct (loop_inv_dedupe d h' leads Hall') as (_ & _ & Hu' & _).
  assert (Heq : unique (dedupe d leads h) = unique (dedupe d leads h')).
  { rewrite Hu, Hu'. apply (scan_ext _ _ (λ x, x ∈ leads)).
    - intros x y Hx Hy. unfold dup_in. apply isDuplicate_content; by apply Hsame.
    - by apply Forall_forall. }
  split; [done|].
  pose proof (dedupe_length d leads h) as H1.
  pose proof (dedupe_length d leads h') as H2.
  rewrite Heq in H1. lia.
Qed.

Lemma ids_do_not_matter_witness :
  unique (dedupe (constructor no_options) [1; 2] same_id_leads)
  = unique (dedupe (constructor no_options) [1; 2]
              (heap_of [object [("source", "hackernews"); ("title", "Need Facebook Ads Help")];
                        object [("id", "2"); ("source", "reddit");
                                ("title", "Shopify Developer Wanted")]])).
Proof.
  refine (proj1 (ids_do_not_matter _ [1; 2] _ _ _ _ _)).
  - by apply allocated_heap_of.
  - by apply allocated_heap_of.
  - intros l Hl.
    assert (l = 1 ∨ l = 2) as [-> | ->] by list_mem; vm_compute; auto.
Defined.

(** ** Running the batch again *)

Lemma dedupe_no_change (d : Deduplicator) (ls : list loc) (h : heap) :
  (∀ l, l ∈ ls → truthy (get (deref h l) "id") = true) →
  duplicates (dedupe d ls h) = [] →
  store (dedupe d ls h) = h.
Proof.
  induction ls as [|l pre IH] using rev_ind; [done|].
  intros Hids. rewrite dedupe_snoc. unfold dedupe_step.
  destruct (first_duplicate _ _ _ _); cbn [store duplicates].
  - intros Hnil. by apply app_nil in Hnil as [_ ?].
  - intros Hnil. rewrite (IH (λ x Hx, Hids x ltac:(list_mem)) Hnil).
    unfold assign_id. by rewrite Hids by list_mem.
Qed.

Lemma rerun_unique (d : Deduplicator) (leads : list loc) (h : heap) :
  allocated h leads →
  unique (dedupe d (unique (dedupe d leads h)) (store (dedupe d leads h)))
  = unique (dedupe d leads h)
  ∧ duplicates (dedupe d (unique (dedupe d leads h)) (store (dedupe d leads h))) = [].
Proof.
  intros Hall. set (b := dedupe d leads h).
  destruct (loop_inv_dedupe d h leads Hall) as (Hdom & _ & Huniq & Hsub & _).
  fold b in Hdom, Huniq, Hsub.
  assert (Hall' : allocated (store b) (unique b)).
  { apply Forall_forall. intros e He. apply Hdom.
    eapply Forall_forall in Hall; [exact Hall | by apply Hsub]. }
  destruct (loop_inv_dedupe d (store b) (unique b) Hall') as (_ & _ & Huniq' & _).
  assert (Hsame : unique (dedupe d (unique b) (store b)) = unique b).
  { rewrite Huniq'.
    rewrite (scan_ext (dup_in d (store b)) (dup_in d h) (λ x, x ∈ leads)).
    - rewrite Huniq. apply scan_idemp.
    - intros x y Hx Hy. by apply final_dup.
    - by apply Forall_forall. }
  split; [done|].
  pose proof (dedupe_length d (unique b) (store b)) as Hlen.
  rewrite Hsame in Hlen. apply length_zero_iff_nil. lia.
Qed.

(** X13: a second run on the [unique] array of a first run changes nothing:
    it writes no id, allocates no object and returns the array as it got
    it. *)
Theorem rerun_changes_nothing (d : Deduplicator) (leads : list loc) (h : heap) :
  allocated h leads →
  let b := dedupe d leads h in
  dedupe d (unique b) (store b)
  = {| store := store b; unique := unique b; duplicates := [] |}.
Proof.
  intros Hall b. destruct (rerun_unique d leads h Hall) as [Hu Hd]. fold b in Hu, Hd.
  assert (Hs : store (dedupe d (unique b) (store b)) = store b).
  { apply dedupe_no_change; [|done]. intros l Hl.
    subst b. rewrite final_object; [apply with_id_truthy | done |].
    by apply (unique_in_leads d h). }
  destruct (dedupe d (unique b) (store b)). simpl in *. by subst.
Qed.

Lemma rerun_changes_nothing_witness :
  let b := dedupe (constructor no_options) [1; 2] no_id_leads in
  dedupe (constructor no_options) (unique b) (store b)
  = {| store := store b; unique := unique b; duplicates := [] |}.
Proof.
  apply (rerun_changes_nothing (constructor no_options) [1; 2] no_id_leads).
  by apply allocated_heap_of.
Defined.

(** ** checkExisting: what it answers *)

Lemma getLeadById_None (h : heap) (db : Database) (id : value) :
  getLeadById h db id = None
  ↔ Forall (λ l, get (deref h l) "id" ≠ id) (data_leads db).
Proof.
  unfold getLeadById. destruct db as [ls]. simpl.
  induction ls as [|l ls IH]; simpl.
  - split; [constructor | done].
  - unfold strict_eq at 1. case_bool_decide as Hid.
    + split; [done|]. by inversion 1.
    + rewrite IH. split; [by constructor | by inversion 1].
Qed.

Lemma getLeadById_first (h : heap) (db : Database) (id : value) (e : loc) :
  getLeadById h db id = Some e
  ↔ ∃ pre post : list loc,
      data_leads db = pre ++ e :: post
      ∧ Forall (λ l, get (deref h l) "id" ≠ id) pre
      ∧ get (deref h e) "id" = id.
Proof.
  unfold getLeadById. destruct db as [ls]. simpl. split.
  - induction ls as [|l ls IH]; simpl; [done|].
    unfold strict_eq at 1. case_bool_decide as Hid.
    + intros [= ->]. by exists [], ls.
    + intros (pre & post & -> & Hpre & He)%IH.
      exists (l :: pre), post. split; [done|]. split; [by constructor | done].
  - intros (pre & post & -> & Hpre & He).
    induction Hpre as [|l pre Hl _ IH]; simpl; unfold strict_eq at 1.
    + by rewrite bool_decide_eq_true_2.
    + by rewrite bool_decide_eq_false_2.
Qed.

Lemma check_similar_answer (d : Deduplicator) (h : heap) (l : loc) (stored : list loc) :
  match lead (check_similar d h l stored) with
  | Some e =>
      exists_ (check_similar d h l stored) = true
      ∧ similar (check_similar d h l stored) = Some true
      ∧ e ∈ stored ∧ isDuplicate d (deref h l) (deref h e) = true
  | None =>
      exists_ (check_similar d h l stored) = false
      ∧ similar (check_similar d h l stored) = None
  end.
Proof.
  induction stored as [|x stored IH]; simpl; [done|].
  destruct (isDuplicate d (deref h l) (deref h x)) eqn:E; simpl.
  - repeat split; [list_mem | done].
  - destruct (lead (check_similar d h l stored)); [|done].
    destruct IH as (? & ? & ? & ?). repeat split; try done. list_mem.
Qed.

(** X14: [checkExisting] only ever answers with a stored record.  Without the
    [similar] flag that record has the id of the lead; with the flag the id
    is not in the store and [isDuplicate] accepts the record.  With
    [exists: false] there is no record and no flag. *)
Theorem checkExisting_answer (d : Deduplicator) (h : heap) (l : loc) (db : Database) :
  let r := checkExisting d h l db in
  match lead r with
  | Some e =>
      exists_ r = true ∧ e ∈ getAllLeads db
      ∧ ((similar r = None ∧ get (deref h e) "id" = get (deref h l) "id")
         ∨ (similar r = Some true
            ∧ getLeadById h db (get (deref h l) "id") = None
            ∧ isDuplicate d (deref h l) (deref h e) = true))
  | None => exists_ r = false ∧ similar r = None
  end.
Proof.
  unfold checkExisting.
  destruct (getLeadById h db (get (deref h l) "id")) as [e|] eqn:E; simpl.
  - destruct (getLeadById_Some h db _ e E) as [Hin Hid]. split; [done|].
    split; [done|]. by left.
  - pose proof (check_similar_answer d h l (getAllLeads db)) as H.
    destruct (lead (check_similar d h l (getAllLeads db))) as [e|]; [|done].
    destruct H as (? & ? & ? & ?). split; [done|]. split; [done|]. by right.
Qed.

(** X15: a lead that is itself a stored record is always reported as
    existing, through the id lookup and whatever the thresholds. *)
Theorem stored_lead_exists (d : Deduplicator) (h : heap) (l : loc) (db : Database) :
  l ∈ data_leads db →
  exists_ (checkExisting d h l db) = true
  ∧ similar (checkExisting d h l db) = None.
Proof.
  intros Hl. unfold checkExisting.
  destruct (getLeadById h db (get (deref h l) "id")) as [e|] eqn:E; [done|].
  apply getLeadById_None in E. by eapply Forall_forall in E.
Qed.

Lemma stored_lead_exists_witness :
  exists_ (checkExisting (constructor no_options) short_title_leads 2
             {| data_leads := [1; 2] |}) = true
  ∧ similar (checkExisting (constructor no_options) short_title_leads 2
               {| data_leads := [1; 2] |}) = None.
Proof.
  apply (stored_lead_exists (constructor no_options) short_title_leads 2
           {| data_leads := [1; 2] |}).
  repeat constructor.
Defined.

(** * The store of lib/db.js *)

Lemma getLeadById_ids_ext (h h' : heap) (db : Database) (id : value) :
  (∀ x, x ∈ data_leads db → get (deref h' x) "id" = get (deref h x) "id") →
  getLeadById h' db id = getLeadById h db id.
Proof.
  unfold getLeadById. destruct db as [ls]. simpl.
  induction ls as [|x ls IH]; intros H; simpl; [done|].
  rewrite (H x) by list_mem. destruct (strict_eq _ _); [done|].
  apply IH. intros y Hy. apply H. list_mem.
Qed.

Lemma stored_ids_ext (h h' : heap) (db : Database) :
  (∀ x, x ∈ data_leads db → get (deref h' x) "id" = get (deref h x) "id") →
  stored_ids h' db = stored_ids h db.
Proof.
  unfold stored_ids. destruct db as [ls]. simpl.
  induction ls as [|x ls IH]; intros H; simpl; [done|].
  rewrite (H x) by list_mem. f_equal. apply IH. intros y Hy. apply H. list_mem.
Qed.

Lemma get_union_id (target source : obj) (id : value) :
  get source "id" = id → get target "id" = id → get (source ∪ target) "id" = id.
Proof.
  unfold get. rewrite lookup_union.
  destruct (source !! "id") as [v|], (target !! "id") as [v'|]; simpl; congruence.
Qed.

Lemma get_assign_updated_id (target source : obj) (t : string) (id : value) :
  get source "id" = id → get target "id" = id →
  get (assign_updated target source t) "id" = id.
Proof.
  intros Hs Ht. unfold assign_updated. rewrite get_insert_ne by done.
  by apply get_union_id.
Qed.

Lemma assign_updated_source (target source : obj) (t : string) (k : string) (v : value) :
  source !! k = Some v → k ≠ "updatedAt" →
  assign_updated target source t !! k = Some v.
Proof.
  intros Hk Hne. unfold assign_updated. rewrite lookup_insert_ne by done.
  by apply lookup_union_Some_l.
Qed.

Lemma assign_updated_target (target source : obj) (t : string) (k : string) :
  source !! k = None → k ≠ "updatedAt" →
  assign_updated target source t !! k = target !! k.
Proof.
  intros Hk Hne. unfold assign_updated. rewrite lookup_insert_ne by done.
  by apply lookup_union_r.
Qed.

Section StoreLemmas.

Variable clock : nat → string.
Implicit Types (w : World) (l e x : loc) (id : value).

(** *** The two branches of addLead *)

Lemma addLead_hit l w e :
  getLeadById (objects w) (data w) (get (deref (objects w) l) "id") = Some e →
  (addLead clock l w).1 = {| added := false; added_lead := e |}
  ∧ objects (addLead clock l w).2
    = <[e := assign_updated (deref (objects w) e) (deref (objects w) l)
               (clock (ticks w))]> (objects w)
  ∧ data (addLead clock l w).2 = data w.
Proof. intros H. unfold addLead. by rewrite H. Qed.

Lemma addLead_miss l w :
  getLeadById (objects w) (data w) (get (deref (objects w) l) "id") = None →
  ∃ (c : value) (t : string),
    (addLead clock l w).1 = {| added := true; added_lead := l |}
    ∧ objects (addLead clock l w).2
      = <[fresh (dom (objects w)) :=
            <["updatedAt" := VStr t]> (<["capturedAt" := c]> (deref (objects w) l))]>
          (objects w)
    ∧ data_leads (data (addLead clock l w).2)
      = data_leads (data w) ++ [fresh (dom (objects w))]
    ∧ (truthy (get (deref (objects w) l) "capturedAt") = true →
       c = get (deref (objects w) l) "capturedAt").
Proof.
  intros H. unfold addLead. rewrite H.
  destruct (truthy (get (deref (objects w) l) "capturedAt")) eqn:E; simpl;
    eexists _, _; repeat split; try done.
Qed.

Lemma fresh_not_stored w x :
  well_formed w → x ∈ data_leads (data w) → x ≠ fresh (dom (objects w)).
Proof.
  intros Hwf Hx ->. eapply Forall_forall in Hwf; [|exact Hx].
  by apply (is_fresh (dom (objects w))).
Qed.

End StoreLemmas.

Lemma addLead_found (clock : nat → string) (l : loc) (w : World) :
  well_formed w →
  let h := objects w in
  let w' := (addLead clock l w).2 in
  ∃ rec : loc,
    getLeadById (objects w') (data w') (get (deref h l) "id") = Some rec
    ∧ (∀ (k : string) (v : value),
         deref h l !! k = Some v → k ≠ "capturedAt" → k ≠ "updatedAt" →
         deref (objects w') rec !! k = Some v)
    ∧ ∃ t : string, get (deref (objects w') rec) "updatedAt" = VStr t.
Proof.
  intros Hwf h w'. subst w'.
  destruct (getLeadById h (data w) (get (deref h l) "id")) as [e|] eqn:E.
  - destruct (addLead_hit clock l w e E) as (_ & Hobj & Hdata).
    rewrite Hobj, Hdata. fold h.
    destruct (getLeadById_Some h (data w) _ e E) as [Hin Hid].
    exists e. split; [|split].
    + etrans; [|exact E]. apply getLeadById_ids_ext. intros x Hx.
      destruct (decide (x = e)) as [->|Hne].
      * unfold deref at 1. rewrite lookup_total_insert_eq.
        rewrite Hid. by apply get_assign_updated_id.
      * unfold deref. by rewrite lookup_total_insert_ne.
    + intros k v Hk _ Hne. unfold deref at 1. rewrite lookup_total_insert_eq.
      by apply assign_updated_source.
    + exists (clock (ticks w)). unfold deref. rewrite lookup_total_insert_eq.
      unfold assign_updated. apply get_insert_eq.
  - destruct (addLead_miss clock l w E) as (c & t & _ & Hobj & Hleads & _).
    fold h in Hobj, Hleads. set (l' := fresh (dom h)) in *.
    assert (Hrec : deref (objects (addLead clock l w).2) l'
                   = <["updatedAt" := VStr t]> (<["capturedAt" := c]> (deref h l))).
    { rewrite Hobj. unfold deref at 1. by rewrite lookup_total_insert_eq. }
    exists l'. split; [|split].
    + apply getLeadById_first. exists (data_leads (data w)), [].
      split; [done|]. split.
      * apply getLeadById_None in E. apply Forall_forall. intros x Hx.
        eapply Forall_forall in E; [|exact Hx].
        rewrite Hobj. unfold deref at 1.
        rewrite lookup_total_insert_ne; [done|].
        intros Heq. by apply (fresh_not_stored w x Hwf Hx).
      * rewrite Hrec. by rewrite !get_insert_ne.
    + intros k v Hk Hc Hu. rewrite Hrec. by rewrite !lookup_insert_ne.
    + exists t. rewrite Hrec. apply get_insert_eq.
Qed.

(** X16: after [addLead(lead)] the id of the lead is in the store, and the
    record found under it holds every property of the lead (the two time
    stamps apart) and an [updatedAt] stamp. *)
Theorem addLead_then_found (clock : nat → string) (l : loc) (w : World) :
  well_formed w →
  let h := objects w in
  let w' := (addLead clock l w).2 in
  ∃ rec : loc,
    getLeadById (objects w') (data w') (get (deref h l) "id") = Some rec
    ∧ (∀ (k : string) (v : value),
         deref h l !! k = Some v → k ≠ "capturedAt" → k ≠ "updatedAt" →
         deref (objects w') rec !! k = Some v)
    ∧ ∃ t : string, get (deref (objects w') rec) "updatedAt" = VStr t.
Proof. apply addLead_found. Qed.

Lemma addLead_then_found_witness :
  let w' := (addLead example_clock 2 example_world).2 in
  ∃ rec : loc,
    getLeadById (objects w') (data w') (get (deref test_leads 2) "id") = Some rec
    ∧ (∀ (k : string) (v : value),
         deref test_leads 2 !! k = Some v → k ≠ "capturedAt" → k ≠ "updatedAt" →
         deref (objects w') rec !! k = Some v)
    ∧ ∃ t : string, get (deref (objects w') rec) "updatedAt" = VStr t.
Proof.
  apply (addLead_then_found example_clock 2 example_world).
  by apply (allocated_heap_of _ [1; 3]).
Defined.

(** X17: [addLead] never drops or reorders a record.  It appends exactly one
    new object when the id of the lead is not in the store, and then reports
    [added: true] with the lead it was given; otherwise the array is as it
    was and it reports [added: false] with the stored record of that id. *)
Theorem addLead_growth (clock : nat → string) (l : loc) (w : World) :
  let h := objects w in
  let r := (addLead clock l w).1 in
  let w' := (addLead clock l w).2 in
  match getLeadById h (data w) (get (deref h l) "id") with
  | None =>
      r = {| added := true; added_lead := l |}
      ∧ data_leads (data w') = data_leads (data w) ++ [fresh (dom h)]
      ∧ (fresh (dom h) ∉ dom h)
  | Some e =>
      r = {| added := false; added_lead := e |}
      ∧ data_leads (data w') = data_leads (data w)
  end.
Proof.
  intros h r w'. subst r w'.
  destruct (getLeadById h (data w) (get (deref h l) "id")) as [e|] eqn:E.
  - destruct (addLead_hit clock l w e E) as (Hr & _ & Hdata). by rewrite Hr, Hdata.
  - destruct (addLead_miss clock l w E) as (c & t & Hr & _ & Hleads & _).
    rewrite Hr, Hleads. split; [done|]. split; [done|]. apply is_fresh.
Qed.

(** X18: [addLead] keeps the ids of the store pairwise distinct, and keeps
    every record an object of the heap. *)
Theorem addLead_keeps_ids_distinct (clock : nat → string) (l : loc) (w : World) :
  well_formed w →
  NoDup (stored_ids (objects w) (data w)) →
  let w' := (addLead clock l w).2 in
  well_formed w' ∧ NoDup (stored_ids (objects w') (data w')).
Proof.
  intros Hwf Hnd w'. subst w'. set (h := objects w) in *.
  destruct (getLeadById h (data w) (get (deref h l) "id")) as [e|] eqn:E.
  - destruct (addLead_hit clock l w e E) as (_ & Hobj & Hdata).
    destruct (getLeadById_Some h (data w) _ e E) as [Hin Hid].
    fold h in Hobj. unfold well_formed. rewrite Hobj, Hdata. split.
    + apply Forall_forall. intros x Hx. rewrite dom_insert_L.
      eapply Forall_forall in Hwf; [|exact Hx]. set_solver.
    + rewrite (stored_ids_ext h); [done|]. intros x Hx.
      destruct (decide (x = e)) as [->|Hne].
      * unfold deref at 1. rewrite lookup_total_insert_eq.
        rewrite Hid. by apply get_assign_updated_id.
      * unfold deref. by rewrite lookup_total_insert_ne.
  - destruct (addLead_miss clock l w E) as (c & t & _ & Hobj & Hleads & _).
    fold h in Hobj, Hleads. set (l' := fresh (dom h)) in *.
    assert (Hold : ∀ x, x ∈ data_leads (data w) →
              deref (objects (addLead clock l w).2) x = deref h x).
    { intros x Hx. rewrite Hobj. unfold deref.
      rewrite lookup_total_insert_ne; [done|].
      intros Heq. by apply (fresh_not_stored w x Hwf Hx). }
    split.
    + unfold well_formed. rewrite Hleads, Hobj. apply Forall_app. split.
      * apply Forall_forall. intros x Hx. rewrite dom_insert_L.
        eapply Forall_forall in Hwf; [|exact Hx]. fold h in Hwf. set_solver.
      * constructor; [|constructor]. rewrite dom_insert_L. set_solver.
    + unfold stored_ids. rewrite Hleads, fmap_app. simpl.
      assert (Hids : (λ x, get (deref (objects (addLead clock l w).2) x) "id")
                       <$> data_leads (data w)
                     = stored_ids h (data w)).
      { unfold stored_ids. apply list_fmap_ext. intros i x Hx.
        rewrite Hold; [done|]. apply list_elem_of_lookup. eauto. }
      rewrite Hids. apply NoDup_app. split; [done|]. split; [|apply NoDup_singleton].
      intros v Hv Hv'. apply list_elem_of_singleton in Hv'. subst v.
      apply list_elem_of_fmap in Hv as (x & Hx & Hin).
      apply getLeadById_None in E. eapply Forall_forall in E; [|exact Hin].
      apply E. rewrite <- Hx. rewrite Hobj. unfold deref at 1.
      rewrite lookup_total_insert_eq. by rewrite !get_insert_ne.
Qed.

Lemma addLead_keeps_ids_distinct_witness :
  let w' := (addLead example_clock 2 example_world).2 in
  well_formed w' ∧ NoDup (stored_ids (objects w') (data w')).
Proof.
  apply (addLead_keeps_ids_distinct example_clock 2 example_world).
  - by apply (allocated_heap_of _ [1; 3]).
  - vm_compute. repeat constructor; list_mem.
Defined.

(** X19: [addLead] writes on at most one object that existed before the
    call: the stored record it merges the lead into.  When it adds a record,
    every earlier object, the lead included, is as it was. *)
Theorem addLead_frame (clock : nat → string) (l : loc) (w : World) (x : loc) :
  x ∈ dom (objects w) →
  let r := (addLead clock l w).1 in
  (added r = false → x ≠ added_lead r) →
  objects (addLead clock l w).2 !! x = objects w !! x.
Proof.
  intros Hx r Hne. subst r.
  destruct (getLeadById (objects w) (data w) (get (deref (objects w) l) "id"))
    as [e|] eqn:E.
  - destruct (addLead_hit clock l w e E) as (Hr & Hobj & _).
    rewrite Hr in Hne. rewrite Hobj, lookup_insert_ne; [done|].
    intros <-. by apply Hne.
  - destruct (addLead_miss clock l w E) as (c & t & _ & Hobj & _).
    rewrite Hobj, lookup_insert_ne; [done|].
    intros <-. by apply (is_fresh (dom (objects w))).
Qed.

Lemma addLead_frame_witness :
  objects (addLead example_clock 2 example_world).2 !! 2 = test_leads !! 2.
Proof.
  apply (addLead_frame example_clock 2 example_world 2).
  - apply elem_of_dom. eexists. reflexivity.
  - vm_compute. discriminate.
Defined.

(** *** deleteLead and updateLead *)

Lemma findIndex_None (h : heap) (id : value) (ls : list loc) :
  findIndex h id ls = None ↔ Forall (λ l, get (deref h l) "id" ≠ id) ls.
Proof.
  induction ls as [|l ls IH]; simpl.
  - split; [constructor | done].
  - unfold strict_eq. case_bool_decide as Hid.
    + split; [done|]. by inversion 1.
    + destruct (findIndex h id ls); simpl.
      * split; [done|]. inversion 1; subst. destruct IH as [_ IH].
        by discriminate IH.
      * split; [|done]. intros _. constructor; [done|]. by apply IH.
Qed.

Lemma findIndex_Some (h : heap) (id : value) (ls : list loc) (i : nat) :
  findIndex h id ls = Some i →
  ∃ (pre : list loc) (e : loc) (post : list loc),
    ls = pre ++ e :: post ∧ length pre = i
    ∧ Forall (λ l, get (deref h l) "id" ≠ id) pre
    ∧ get (deref h e) "id" = id.
Proof.
  revert i. induction ls as [|l ls IH]; intros i; simpl; [done|].
  unfold strict_eq. case_bool_decide as Hid.
  - intros [= <-]. by exists [], l, ls.
  - destruct (findIndex h id ls) as [j|]; simpl; [|done].
    intros [= <-]. destruct (IH j eq_refl) as (pre & e & post & -> & Hlen & Hpre & He).
    exists (l :: pre), e, post. simpl.
    split; [done|]. split; [lia|]. split; [by constructor | done].
Qed.

Lemma first_hit_unique (P : loc → Prop) (pre pre' post post' : list loc) (e e' : loc) :
  pre ++ e :: post = pre' ++ e' :: post' →
  Forall (λ x, ¬ P x) pre → P e → Forall (λ x, ¬ P x) pre' → P e' →
  pre = pre' ∧ e = e' ∧ post = post'.
Proof.
  revert pre'. induction pre as [|x pre IH]; intros [|y pre'] Heq Hp He Hp' He';
    simpl in *; simplify_eq.
  - done.
  - by inversion Hp'.
  - by inversion Hp.
  - inversion Hp; inversion Hp'; subst.
    by destruct (IH pre') as (-> & -> & ->).
Qed.

Lemma delete_middle (pre post : list loc) (e : loc) :
  delete (length pre) (pre ++ e :: post) = pre ++ post.
Proof. induction pre as [|x pre IH]; simpl; [done|]. by rewrite IH. Qed.

Lemma deleteLead_cases (clock : nat → string) (id : value) (w : World) :
  match getLeadById (objects w) (data w) id with
  | None => deleteLead clock id w = (false, w)
  | Some e =>
      ∃ pre post : list loc,
        data_leads (data w) = pre ++ e :: post
        ∧ Forall (λ l, get (deref (objects w) l) "id" ≠ id) pre
        ∧ (deleteLead clock id w).1 = true
        ∧ data_leads (data (deleteLead clock id w).2) = pre ++ post
        ∧ objects (deleteLead clock id w).2 = objects w
  end.
Proof.
  unfold deleteLead.
  destruct (getLeadById (objects w) (data w) id) as [e|] eqn:E.
  - apply getLeadById_first in E as (pre & post & Hls & Hpre & He).
    exists pre, post. split; [done|]. split; [done|].
    destruct (findIndex (objects w) id (data_leads (data w))) as [i|] eqn:Ei.
    + apply findIndex_Some in Ei as (pre' & e' & post' & Hls' & Hlen & Hpre' & He').
      rewrite Hls in Hls'.
      destruct (first_hit_unique (λ x, get (deref (objects w) x) "id" = id)
                  pre pre' post post' e e' Hls' Hpre He Hpre' He') as (-> & -> & ->).
      cbn. rewrite Hls, <- Hlen. by rewrite delete_middle.
    + apply findIndex_None in Ei. rewrite Hls in Ei.
      apply Forall_app in Ei as [_ Ei]. by inversion Ei.
  - apply getLeadById_None, findIndex_None in E. by rewrite E.
Qed.


(** X20: [deleteLead] of an id that is not in the store answers [false] and
    changes nothing, not even [lastUpdated].  Otherwise it answers [true] and
    removes one record, the first with that id; the other records stay in
    their order and no object is written. *)
Theorem deleteLead_spec (clock : nat → string) (id : value) (w : World) :
  match getLeadById (objects w) (data w) id with
  | None => deleteLead clock id w = (false, w)
  | Some e =>
      ∃ pre post : list loc,
        data_leads (data w) = pre ++ e :: post
        ∧ Forall (λ l, get (deref (objects w) l) "id" ≠ id) pre
        ∧ (deleteLead clock id w).1 = true
        ∧ data_leads (data (deleteLead clock id w).2) = pre ++ post
        ∧ objects (deleteLead clock id w).2 = objects w
  end.
Proof. apply deleteLead_cases. Qed.

(** X21: when the ids of the store are pairwise distinct, an id is gone once
    [deleteLead] ran on it. *)
Theorem deleteLead_then_missing (clock : nat → string) (id : value) (w : World) :
  NoDup (stored_ids (objects w) (data w)) →
  let w' := (deleteLead clock id w).2 in
  getLeadById (objects w') (data w') id = None.
Proof.
  intros Hnd w'. subst w'. pose proof (deleteLead_cases clock id w) as H.
  destruct (getLeadById (objects w) (data w) id) as [e|] eqn:E.
  - destruct H as (pre & post & Hls & Hpre & _ & Hls' & Hobj).
    apply getLeadById_None. rewrite Hls', Hobj. apply Forall_app. split; [done|].
    unfold stored_ids in Hnd. rewrite Hls, fmap_app, fmap_cons in Hnd.
    apply NoDup_app in Hnd as (_ & _ & Hnd). apply NoDup_cons in Hnd as [Hnin _].
    destruct (getLeadById_Some _ _ _ _ E) as [_ He].
    apply Forall_forall. intros x Hx Hid. apply Hnin.
    apply list_elem_of_fmap. exists x. split; [congruence | done].
  - by rewrite H.
Qed.

Lemma deleteLead_then_missing_witness :
  let w' := (deleteLead example_clock (VStr "1") example_world).2 in
  getLeadById (objects w') (data w') (VStr "1") = None.
Proof.
  apply (deleteLead_then_missing example_clock (VStr "1") example_world).
  vm_compute. repeat constructor; list_mem.
Defined.

(** X22: [updateLead] of an id that is not in the store answers [null] and
    changes nothing.  Otherwise it answers with the first record of that id,
    after writing every property of [updates] and an [updatedAt] stamp on
    it; the other properties of that record, the other objects and the array
    are as they were. *)
Theorem updateLead_spec (clock : nat → string) (id : value) (updates : loc) (w : World) :
  let h := objects w in
  let h' := objects (updateLead clock id updates w).2 in
  match getLeadById h (data w) id with
  | None => updateLead clock id updates w = (None, w)
  | Some l =>
      (updateLead clock id updates w).1 = Some l
      ∧ data (updateLead clock id updates w).2 = data w
      ∧ (∀ (k : string) (v : value), deref h updates !! k = Some v → k ≠ "updatedAt" →
           deref h' l !! k = Some v)
      ∧ (∀ k : string, deref h updates !! k = None → k ≠ "updatedAt" →
           deref h' l !! k = deref h l !! k)
      ∧ get (deref h' l) "updatedAt" = VStr (clock (ticks w))
      ∧ (∀ x, x ≠ l → h' !! x = h !! x)
  end.
Proof.
  intros h h'. subst h'. unfold updateLead. fold h.
  destruct (getLeadById h (data w) id) as [l|] eqn:E; [|done].
  cbn. split; [done|]. split; [done|].
  set (m := assign_updated (deref h l) (deref h updates) (clock (ticks w))).
  assert (Hm : deref (<[l:=m]> h) l = m)
    by (unfold deref; apply lookup_total_insert_eq).
  rewrite !Hm. split; [|split; [|split]].
  - intros k v Hk Hne. by apply assign_updated_source.
  - intros k Hk Hne. by apply assign_updated_target.
  - unfold assign_updated. apply get_insert_eq.
  - intros x Hx. by rewrite lookup_insert_ne.
Qed.

(** X23: once [addLead(lead)] ran, [checkExisting(lead)] reports the lead as
    existing through its id, so feeding the same lead again adds nothing. *)
Theorem added_lead_exists (d : Deduplicator) (clock : nat → string) (l : loc) (w : World) :
  well_formed w → l ∈ dom (objects w) →
  let w' := (addLead clock l w).2 in
  exists_ (checkExisting d (objects w') l (data w')) = true
  ∧ similar (checkExisting d (objects w') l (data w')) = None
  ∧ added (addLead clock l w').1 = false.
Proof.
  intros Hwf Hl w'.
  destruct (addLead_found clock l w Hwf) as (rec & Hrec & _). fold w' in Hrec.
  assert (Hid : get (deref (objects w') l) "id" = get (deref (objects w) l) "id").
  { subst w'.
    destruct (getLeadById (objects w) (data w) (get (deref (objects w) l) "id"))
      as [e|] eqn:E.
    - destruct (addLead_hit clock l w e E) as (_ & Hobj & _). rewrite Hobj.
      destruct (decide (e = l)) as [->|Hne].
      + unfold deref at 1. rewrite lookup_total_insert_eq.
        by apply get_assign_updated_id.
      + unfold deref. by rewrite lookup_total_insert_ne.
    - destruct (addLead_miss clock l w E) as (c & t & _ & Hobj & _). rewrite Hobj.
      unfold deref. rewrite lookup_total_insert_ne; [done|].
      intros Heq. apply (is_fresh (dom (objects w))). by rewrite Heq. }
  rewrite <- Hid in Hrec.
  split; [|split].
  - unfold checkExisting. by rewrite Hrec.
  - unfold checkExisting. by rewrite Hrec.
  - by destruct (addLead_hit clock l w' rec Hrec) as (-> & _).
Qed.

Lemma added_lead_exists_witness :
  let w' := (addLead example_clock 2 example_world).2 in
  exists_ (checkExisting (constructor no_options) (objects w') 2 (data w')) = true
  ∧ similar (checkExisting (constructor no_options) (objects w') 2 (data w')) = None
  ∧ added (addLead example_clock 2 w').1 = false.
Proof.
  apply (added_lead_exists (constructor no_options) example_clock 2 example_world).
  - by apply (allocated_heap_of _ [1; 3]).
  - apply elem_of_dom. eexists. reflexivity.
Defined.

(** * The loader of the .env file *)

Section Strings.

Implicit Types (s t u : string) (c : ascii).

Lemma append_cons c s t : String c s +:+ t = String c (s +:+ t).
Proof. reflexivity. Qed.

Lemma append_nil_r s : s +:+ "" = s.
Proof. induction s as [|c s IH]; [done|]. by rewrite append_cons, IH. Qed.

Lemma append_assoc s t u : (s +:+ t) +:+ u = s +:+ (t +:+ u).
Proof. induction s as [|c s IH]; [done|]. by rewrite !append_cons, IH. Qed.

Lemma prefix_append t s u : String.prefix t s = true → String.prefix t (s +:+ u) = true.
Proof.
  revert s. induction t as [|c t IH]; intros [|c' s]; simpl; try done.
  - intros _. by destruct u.
  - destruct (Ascii.ascii_dec c c'); [apply IH | done].
Qed.

Lemma prefix_length t s : String.prefix t s = true → (String.length t ≤ String.length s)%nat.
Proof.
  revert s. induction t as [|c t IH]; intros [|c' s]; simpl; try done; [lia|].
  destruct (Ascii.ascii_dec c c'); [|done]. intros H%IH. lia.
Qed.

Lemma drop_length n s : String.length (Env.drop n s) = (String.length s - n)%nat.
Proof. revert s. induction n as [|n IH]; intros [|c s]; simpl; try done. Qed.

Lemma take_drop n s : Str.take n s +:+ Env.drop n s = s.
Proof.
  revert s. induction n as [|n IH]; intros [|c s]; simpl; try done.
  by rewrite append_cons, IH.
Qed.

Lemma drop_drop n m s : Env.drop n (Env.drop m s) = Env.drop (m + n) s.
Proof.
  revert s. induction m as [|m IH]; intros s; simpl; [done|].
  destruct s as [|c s]; [by destruct n|]. apply IH.
Qed.

Lemma rev_onto_append s acc : Env.rev_onto s acc = Env.rev s +:+ acc.
Proof.
  unfold Env.rev. revert acc. induction s as [|c s IH]; intros acc; simpl; [done|].
  rewrite (IH (String c "")), IH, append_assoc. done.
Qed.

Lemma rev_append s t : Env.rev (s +:+ t) = Env.rev t +:+ Env.rev s.
Proof.
  induction s as [|c s IH].
  - change (Env.rev "") with "". by rewrite append_nil_r.
  - change (Env.rev (String c s +:+ t)) with (Env.rev_onto (s +:+ t) (String c "")).
    change (Env.rev (String c s)) with (Env.rev_onto s (String c "")).
    by rewrite !rev_onto_append, IH, append_assoc.
Qed.

Lemma rev_involutive s : Env.rev (Env.rev s) = s.
Proof.
  induction s as [|c s IH]; [done|].
  change (String c s) with (String c "" +:+ s) at 1.
  by rewrite rev_append, rev_append, IH.
Qed.

End Strings.

Section EnvLines.

Implicit Types (s k v line : string) (c : ascii) (env : gmap string string).

Lemma span_spec (p : ascii → bool) s :
  s = (Env.span p s).1 +:+ (Env.span p s).2
  ∧ all_chars p (Env.span p s).1 = true
  ∧ match (Env.span p s).2 with String c _ => p c = false | EmptyString => True end.
Proof.
  induction s as [|c s IH]; simpl; [done|].
  destruct (p c) eqn:E; [|done].
  destruct (Env.span p s) as [a b]. simpl in *. destruct IH as (Hs & Ha & Hb).
  rewrite append_cons, <- Hs, E, Ha. done.
Qed.

Lemma span_append (p : ascii → bool) (a b : string) c :
  all_chars p a = true → p c = false →
  Env.span p (a +:+ String c b) = (a, String c b).
Proof.
  intros Ha Hc. induction a as [|x a IH].
  - simpl. change ("" +:+ String c b) with (String c b). simpl. by rewrite Hc.
  - simpl in Ha. apply andb_true_iff in Ha as [Hx Ha].
    rewrite append_cons. simpl. by rewrite Hx, (IH Ha).
Qed.

Lemma match_line_Some line k v :
  Env.match_line line = Some (k, v)
  ↔ line = k +:+ String "=" v ∧ k ≠ "" ∧ all_chars Env.key_char k = true
    ∧ Env.dot_all v = true.
Proof.
  unfold Env.match_line. split.
  - destruct (span_spec Env.key_char line) as (Hs & Ha & Hb).
    destruct (Env.span Env.key_char line) as [[|c a] [|x b]]; simpl in *; try done.
    destruct (Ascii.eqb_spec x "="); [|by destruct x as [[] [] [] [] [] [] [] []]].
    subst x. destruct (Env.dot_all b) eqn:Ed; [|done].
    intros [= <- <-]. by rewrite Hs.
  - intros (-> & Hk & Ha & Hv).
    rewrite span_append by done. destruct k as [|c k]; [done|]. by rewrite Hv.
Qed.

Lemma last_char_append (a b : string) :
  b ≠ "" → last_char (a +:+ b) = last_char b.
Proof.
  intros Hb. induction a as [|c a IH]; [done|].
  rewrite append_cons. simpl. rewrite IH.
  destruct (a +:+ b) eqn:E; [|done]. destruct a, b; done.
Qed.

Lemma dot_all_carriage_return v :
  last_char v = Some (ascii_of_N 13) → Env.dot_all v = false.
Proof.
  induction v as [|c v IH]; [done|].
  destruct v as [|c' v].
  - intros [= ->]. reflexivity.
  - intros H. specialize (IH H).
    change (Env.dot_all (String c (String c' v)))
      with (match Env.leading Env.line_terminators (String c (String c' v)) with
            | Some _ => false
            | None => Env.dot_all (String c' v)
            end).
    by destruct (Env.leading Env.line_terminators (String c (String c' v))).
Qed.

Lemma match_line_carriage_return line :
  last_char line = Some (ascii_of_N 13) → Env.match_line line = None.
Proof.
  intros Hcr. destruct (Env.match_line line) as [[k v]|] eqn:E; [|done].
  apply match_line_Some in E as (-> & _ & _ & Hv).
  rewrite last_char_append in Hcr by done.
  destruct v as [|c v]; [done|].
  by rewrite dot_all_carriage_return in Hv.
Qed.

Lemma set_unless_present_keeps env line k v :
  env !! k = Some v → v ≠ "" → Env.set_unless_present env line !! k = Some v.
Proof.
  intros Hk Hv. unfold Env.set_unless_present.
  destruct (Env.match_line line) as [[key value]|]; [|done].
  destruct (decide (key = k)) as [->|Hne].
  - unfold Env.reads_falsy. rewrite Hk. by destruct v.
  - destruct (Env.reads_falsy env key); by rewrite ?lookup_insert_ne.
Qed.

Lemma set_unless_present_other env line k :
  (∀ v, Env.match_line line ≠ Some (k, v)) →
  Env.set_unless_present env line !! k = env !! k.
Proof.
  intros Hk. unfold Env.set_unless_present.
  destruct (Env.match_line line) as [[key value]|] eqn:E; [|done].
  assert (key ≠ k) as Hne by (intros ->; by eapply Hk).
  destruct (Env.reads_falsy env key); by rewrite ?lookup_insert_ne.
Qed.

Lemma load_lines_keeps (lines : list string) env k v :
  env !! k = Some v → v ≠ "" →
  fold_left Env.set_unless_present lines env !! k = Some v.
Proof.
  revert env. induction lines as [|line lines IH]; intros env Hk Hv; simpl; [done|].
  apply IH; [|done]. by apply set_unless_present_keeps.
Qed.

End EnvLines.

Lemma reads_falsy_true (env : gmap string string) (k : string) :
  Env.reads_falsy env k = true
  ↔ env !! k = Some "" ∨ (env !! k = None ∧ k ∉ Env.inherited).
Proof.
  unfold Env.reads_falsy. destruct (env !! k) as [v|].
  - rewrite String.eqb_eq. split; [intros ->; by left | by intros [[= ->]|[? _]]].
  - rewrite negb_true_iff, bool_decide_eq_false. split; [by right | by intros [?|[_ ?]]].
Qed.

(** X24: what a line of the .env file does.  It matches the pattern exactly
    when it reads [key=value] with a non-empty key that holds no [#] and no
    [=], and a value that holds no line terminator; the key is the whole
    text before the first [=] and the value may hold [=] and [#].  A line
    that matches sets the key to the trimmed value when [process.env[key]]
    reads falsy, that is when the variable is empty, or is not set and has
    not the name of a property inherited from [Object.prototype]; a line
    that matches with another key, or does not match, changes nothing. *)
Theorem match_line_spec (env : gmap string string) (line : string) :
  (∀ k v : string,
     Env.match_line line = Some (k, v)
     ↔ line = k +:+ String "=" v ∧ k ≠ "" ∧ all_chars Env.key_char k = true
       ∧ Env.dot_all v = true)
  ∧ (∀ k v : string,
       Env.match_line line = Some (k, v) →
       (env !! k = Some "" ∨ (env !! k = None ∧ k ∉ Env.inherited) →
        Env.set_unless_present env line = <[k := Env.trim v]> env)
       ∧ (¬ (env !! k = Some "" ∨ (env !! k = None ∧ k ∉ Env.inherited)) →
          Env.set_unless_present env line = env))
  ∧ (Env.match_line line = None → Env.set_unless_present env line = env).
Proof.
  split; [|split].
  - intros k v. apply match_line_Some.
  - intros k v Hm. unfold Env.set_unless_present. rewrite Hm.
    rewrite <- reads_falsy_true. by destruct (Env.reads_falsy env k).
  - intros Hm. unfold Env.set_unless_present. by rewrite Hm.
Qed.

Lemma match_line_spec_witness :
  Env.set_unless_present {[ "MIN_SCORE" := "WARM" ]} "MIN_SCORE=HOT"
  = {[ "MIN_SCORE" := "WARM" ]}
  ∧ Env.set_unless_present {[ "MIN_SCORE" := "" ]} "MIN_SCORE= HOT "
    = <[ "MIN_SCORE" := "HOT" ]> {[ "MIN_SCORE" := "" ]}
  ∧ Env.set_unless_present ∅ "toString=abc" = ∅.
Proof.
  split; [|split].
  - refine (proj2 (proj1 (proj2 (match_line_spec _ "MIN_SCORE=HOT"))
                     "MIN_SCORE" "HOT" _) _).
    + vm_compute. reflexivity.
    + intros [H|[H _]]; vm_compute in H; discriminate.
  - refine (proj1 (proj1 (proj2 (match_line_spec _ "MIN_SCORE= HOT "))
                     "MIN_SCORE" " HOT " _) _).
    + vm_compute. reflexivity.
    + left. reflexivity.
  - refine (proj2 (proj1 (proj2 (match_line_spec ∅ "toString=abc"))
                     "toString" "abc" _) _).
    + vm_compute. reflexivity.
    + intros [H|[_ H]]; [vm_compute in H; discriminate|].
      apply H. unfold Env.inherited. list_mem.
Defined.

(** X25: a line that ends in a carriage return matches nothing, so a file
    with CR LF line ends sets no variable from such a line. *)
Theorem carriage_return_line_ignored (line : string) (env : gmap string string) :
  last_char line = Some (ascii_of_N 13) →
  Env.match_line line = None ∧ Env.set_unless_present env line = env.
Proof.
  intros Hcr. pose proof (match_line_carriage_return line Hcr) as H.
  split; [done|]. unfold Env.set_unless_present. by rewrite H.
Qed.

Lemma carriage_return_line_ignored_witness :
  Env.match_line ("MIN_SCORE=HOT" +:+ Env.of_bytes [13%N]) = None
  ∧ Env.set_unless_present ∅ ("MIN_SCORE=HOT" +:+ Env.of_bytes [13%N]) = ∅.
Proof.
  apply (carriage_return_line_ignored ("MIN_SCORE=HOT" +:+ Env.of_bytes [13%N]) ∅).
  reflexivity.
Defined.

(** X26: the loader never changes a variable that is set to a non-empty
    string before it runs. *)
Theorem load_never_overrides (content : string) (env : gmap string string)
    (k v : string) :
  env !! k = Some v → v ≠ "" → Env.load content env !! k = Some v.
Proof. intros Hk Hv. unfold Env.load. by apply load_lines_keeps. Qed.

Lemma load_never_overrides_witness :
  Env.load example_env_file {[ "MIN_SCORE" := "WARM" ]} !! "MIN_SCORE" = Some "WARM".
Proof.
  apply (load_never_overrides example_env_file {[ "MIN_SCORE" := "WARM" ]}
           "MIN_SCORE" "WARM"); [reflexivity | discriminate].
Defined.

Lemma set_unless_present_blank (env : gmap string string) (line k : string) :
  (∀ v', Env.match_line line = Some (k, v') → Env.trim v' = "") →
  env !! k = None ∨ env !! k = Some "" →
  Env.set_unless_present env line !! k = None
  ∨ Env.set_unless_present env line !! k = Some "".
Proof.
  intros Hblank Hk. unfold Env.set_unless_present.
  destruct (Env.match_line line) as [[key value]|] eqn:E; [|done].
  destruct (decide (key = k)) as [->|Hne].
  - destruct (Env.reads_falsy env k); [|done].
    rewrite (Hblank value eq_refl), lookup_insert_eq. by right.
  - destruct (Env.reads_falsy env key); by rewrite ?lookup_insert_ne.
Qed.

(** X27: the first line that sets a key to a non-blank value wins.  Take a
    key that is not the name of a property inherited from [Object.prototype]
    and that is unset or empty before the file is read, and a line with a
    non-blank value for it such that the earlier lines with that key have
    blank values: the variable holds the trimmed value of that line whatever
    the later lines say. *)
Theorem first_setting_wins (content : string) (env : gmap string string)
    (pre post : list string) (line k v : string) :
  Env.split_lines content = pre ++ line :: post →
  Env.match_line line = Some (k, v) → Env.trim v ≠ "" →
  k ∉ Env.inherited →
  env !! k = None ∨ env !! k = Some "" →
  Forall (λ l, ∀ v', Env.match_line l = Some (k, v') → Env.trim v' = "") pre →
  Env.load content env !! k = Some (Env.trim v).
Proof.
  intros Hsplit Hline Hv Hproto Henv Hpre.
  unfold Env.load. rewrite Hsplit, fold_left_app.
  cbn [fold_left]. apply load_lines_keeps; [|done].
  assert (Hk : fold_left Env.set_unless_present pre env !! k = None
               ∨ fold_left Env.set_unless_present pre env !! k = Some "").
  { clear Hsplit. revert env Henv.
    induction Hpre as [|l pre Hl _ IH]; intros env Henv; simpl; [done|].
    apply IH. by apply set_unless_present_blank. }
  set (e := fold_left Env.set_unless_present pre env) in *.
  unfold Env.set_unless_present. rewrite Hline.
  assert (Env.reads_falsy e k = true) as ->.
  { apply reads_falsy_true. destruct Hk as [Hk|Hk]; [by right | by left]. }
  apply lookup_insert_eq.
Qed.

(** A key that is the name of an inherited property is never set by the
    file. *)
Example inherited_key_skipped :
  Env.load "constructor=abc" ∅ = ∅ ∧ Env.load "toString=abc" ∅ = ∅.
Proof. vm_compute. auto. Qed.

Lemma first_setting_wins_witness :
  Env.load example_env_file ∅ !! "OPENAI_API_KEY " = Some "sk-test"
  ∧ Env.load example_env_file ∅ !! "SMTP_HOST" = Some "mail.example.com".
Proof.
  split.
  - refine (first_setting_wins example_env_file ∅ ["# keys"]
              ["MIN_SCORE=HOT"; "OPENAI_API_KEY =other"; "SMTP_HOST=";
               "SMTP_HOST=mail.example.com"]
              "OPENAI_API_KEY = sk-test " "OPENAI_API_KEY " " sk-test " _ _ _ _ _ _).
    + vm_compute. reflexivity.
    + vm_compute. reflexivity.
    + vm_compute. discriminate.
    + apply (proj1 (bool_decide_eq_false _)). vm_compute. reflexivity.
    + left. reflexivity.
    + repeat constructor. intros v'. vm_compute. discriminate.
  - refine (first_setting_wins example_env_file ∅
              ["# keys"; "OPENAI_API_KEY = sk-test "; "MIN_SCORE=HOT";
               "OPENAI_API_KEY =other"; "SMTP_HOST="] []
              "SMTP_HOST=mail.example.com" "SMTP_HOST" "mail.example.com" _ _ _ _ _ _).
    + vm_compute. reflexivity.
    + vm_compute. reflexivity.
    + vm_compute. discriminate.
    + apply (proj1 (bool_decide_eq_false _)). vm_compute. reflexivity.
    + left. reflexivity.
    + repeat constructor; intros v'; vm_compute; try discriminate.
      intros [= <-]. reflexivity.
Defined.


Section Trim.

Implicit Types (s t : string) (toks : list string).

Lemma leading_None toks s :
  Env.leading toks s = None ↔ Forall (λ t, String.prefix t s = false) toks.
Proof.
  unfold Env.leading. induction toks as [|t toks IH]; simpl.
  - split; [constructor | done].
  - destruct (String.prefix t s) eqn:E.
    + split; [done|]. inversion 1; congruence.
    + rewrite IH. split; [by constructor | by inversion 1].
Qed.

Lemma leading_Some toks s t :
  Env.leading toks s = Some t → t ∈ toks ∧ String.prefix t s = true.
Proof.
  unfold Env.leading. intros [Hin Hp]%find_some. split; [|done].
  by apply list_elem_of_In.
Qed.

Lemma strip_is_drop toks (n : nat) s : ∃ k : nat, Env.strip toks n s = Env.drop k s.
Proof.
  revert s. induction n as [|n IH]; intros s; simpl; [by exists 0|].
  destruct (Env.leading toks s) as [t|]; [|by exists 0].
  destruct (IH (Env.drop (String.length t) s)) as [k ->].
  exists (String.length t + k). apply drop_drop.
Qed.

Lemma strip_no_leading toks (n : nat) s :
  Forall (λ t, t ≠ "") toks → (String.length s ≤ n)%nat →
  Env.leading toks (Env.strip toks n s) = None.
Proof.
  intros Htoks. revert s. induction n as [|n IH]; intros s Hn; simpl.
  - destruct s; [|simpl in Hn; lia].
    apply leading_None. eapply Forall_impl; [exact Htoks|].
    intros [|c t] Ht; [done|]. reflexivity.
  - destruct (Env.leading toks s) as [t|] eqn:E; [|done].
    apply leading_Some in E as [Hin Hp]. apply IH.
    eapply Forall_forall in Htoks; [|exact Hin].
    rewrite drop_length. apply prefix_length in Hp.
    destruct t; [done|]. simpl in *. lia.
Qed.

Lemma rev_onto_length s acc :
  String.length (Env.rev_onto s acc) = (String.length s + String.length acc)%nat.
Proof.
  revert acc. induction s as [|c s IH]; intros acc; simpl; [done|].
  rewrite IH. simpl. lia.
Qed.

Lemma rev_length s : String.length (Env.rev s) = String.length s.
Proof. unfold Env.rev. rewrite rev_onto_length. simpl. lia. Qed.

Lemma no_leading_prefix toks s u :
  Env.leading toks (s +:+ u) = None → Env.leading toks s = None.
Proof.
  rewrite !leading_None. intros H. eapply Forall_impl; [exact H|]. cbn beta.
  intros t Ht. destruct (String.prefix t s) eqn:E; [|done].
  by rewrite (prefix_append t s u E) in Ht.
Qed.

Lemma trim_tokens_nonempty :
  Forall (λ t, t ≠ "") (Env.white_space ++ Env.line_terminators)
  ∧ Forall (λ t, t ≠ "") (List.map Env.rev (Env.white_space ++ Env.line_terminators)).
Proof. split; vm_compute; repeat constructor; discriminate. Qed.

End Trim.

(** X28: [trim] cuts the string at both ends and nothing else: the result
    sits inside the string, and it neither starts nor ends with a white
    space character or a line terminator. *)
Theorem trim_spec (s : string) :
  let toks := Env.white_space ++ Env.line_terminators in
  (∃ a b : string, s = a +:+ Env.trim s +:+ b)
  ∧ Forall (λ t, String.prefix t (Env.trim s) = false) toks
  ∧ Forall (λ t, String.prefix (Env.rev t) (Env.rev (Env.trim s)) = false) toks.
Proof.
  intros toks. destruct trim_tokens_nonempty as [Hne Hne'].
  unfold Env.trim. fold toks in Hne, Hne' |- *.
  set (s1 := Env.strip toks (String.length s) s).
  set (x := Env.strip (List.map Env.rev toks) (String.length s1) (Env.rev s1)).
  assert (H1 : Env.leading toks s1 = None) by by apply strip_no_leading.
  assert (Hx : Env.leading (List.map Env.rev toks) x = None).
  { apply strip_no_leading; [done|]. by rewrite rev_length. }
  destruct (strip_is_drop toks (String.length s) s) as [k Hk]. fold s1 in Hk.
  destruct (strip_is_drop (List.map Env.rev toks) (String.length s1) (Env.rev s1))
    as [j Hj]. fold x in Hj.
  assert (Hs1 : s1 = Env.rev x +:+ Env.rev (Str.take j (Env.rev s1))).
  { rewrite <- rev_append, Hj, take_drop. by rewrite rev_involutive. }
  split; [|split].
  - exists (Str.take k s), (Env.rev (Str.take j (Env.rev s1))).
    rewrite <- Hs1, Hk. by rewrite take_drop.
  - apply leading_None. apply (no_leading_prefix toks _ (Env.rev (Str.take j (Env.rev s1)))).
    by rewrite <- Hs1.
  - rewrite rev_involutive. apply leading_None in Hx.
    by apply Forall_fmap in Hx.
Qed.
